(** * Verification of src/actions/product-attributes.ts (storefront-tools)

    Shallow embedding of the attribute schema server actions and of the
    variant combination generator.  JavaScript plain objects used as
    dictionaries ([Record<string, string>]) are modelled by their own
    enumerable properties: a [gmap string V] when only the contents
    matter, an association list in [Object.keys] order when the order of
    the keys matters. *)

From Stdlib Require Import Sorting.Sorted.
From stdpp Require Import base gmap strings list pretty sorting.

Set Warnings "-register-all".
Open Scope string_scope.
Open Scope list_scope.

(* ------------------------------------------------------------------ *)
(** ** JavaScript objects used as dictionaries *)

(** [obj[k]] on an association list of own properties (the first entry
    wins; [Object.keys] never lists a key twice). *)
Fixpoint assoc_get {V} (k : string) (l : list (string * V)) : option V :=
  match l with
  | [] => None
  | (k', v) :: l' => if decide (k = k') then Some v else assoc_get k l'
  end.

(** [obj[k] = v] on a plain object where [v] is a primitive (a string):
    assigning a primitive to ["__proto__"] goes through the
    [Object.prototype.__proto__] setter, which ignores non-objects, so no
    own property is created; every other key becomes (or stays) an own
    property holding [v]. *)
Definition js_set_prim (o : gmap string string) (k v : string) : gmap string string :=
  if decide (k = "__proto__") then o else <[k:=v]> o.

(* ------------------------------------------------------------------ *)
(** ** generateVariantCombinations (lines 500-530) *)

(** Assign the values [p] to the keys [ks] in order, as the generator's
    assignments [currentCombination[currentKey] = value] do. *)
Fixpoint set_path (ks p : list string) (c : gmap string string) : gmap string string :=
  match ks, p with
  | k :: ks', v :: p' => set_path ks' p' (js_set_prim c k v)
  | _, _ => c
  end.

Section Generator.

(** [attributes : Record<string, string[]>], its own properties in
    [Object.keys] order. *)
Variable attributes : list (string * list string).

(** The mutable state of one call: the single [currentCombination]
    object shared by every recursive call (mutated in place) and the
    [combinations] array that snapshots are pushed to. *)
Record GenState := {
  currentCombination : gmap string string;
  combinations : list (gmap string string)
}.

Definition set_current (s : GenState) (k v : string) : GenState :=
  {| currentCombination := js_set_prim (currentCombination s) k v;
     combinations := combinations s |}.

(** [generateCombination(currentCombination, depth)]; the argument
    [ks] is [keys.slice(depth)], so [depth === keys.length] is [ks = []]
    and [keys[depth]] is the head of [ks].  The [for ... of] loop is a
    [fold_left] over [values] threading the shared state. *)
Fixpoint generateCombination (ks : list string) (s : GenState) : GenState :=
  match ks with
  | [] =>
      (* combinations.push({ ...currentCombination }) *)
      {| currentCombination := currentCombination s;
         combinations := combinations s ++ [currentCombination s] |}
  | currentKey :: rest =>
      (* if (!currentKey) return  -- a string is falsy iff it is "" *)
      if decide (currentKey = "") then s
      else
        match assoc_get currentKey attributes with
        | Some values =>
            fold_left
              (fun s value => generateCombination rest (set_current s currentKey value))
              values s
        | None => s
        end
  end.


(** The value sequences the code reaches for the keys [ks]
    ([attributes[currentKey]] for every key in turn). *)
Fixpoint value_paths (ks : list string) : list (list string) :=
  match ks with
  | [] => [[]]
  | k :: ks' =>
      match assoc_get k attributes with
      | Some vs => flat_map (fun v => map (cons v) (value_paths ks')) vs
      | None => []
      end
  end.

Definition has_empty_key (ks : list string) : bool :=
  existsb (fun k => bool_decide (k = "")) ks.

(** What a call at the suffix [ks] pushes, from a current object [c]. *)
Definition emitted (ks : list string) (c : gmap string string) : list (gmap string string) :=
  if has_empty_key ks then [] else map (fun p => set_path ks p c) (value_paths ks).

End Generator.

Definition generateVariantCombinations (attributes : list (string * list string))
  : list (gmap string string) :=
  combinations
    (generateCombination attributes (map fst attributes)
       {| currentCombination := ∅; combinations := [] |}).

(** The spec's lexicographic enumeration, on positions: the index
    vectors of all total assignments, first key outermost. *)
Fixpoint index_paths (attrs : list (string * list string)) : list (list nat) :=
  match attrs with
  | [] => [[]]
  | (_, vs) :: rest =>
      flat_map (fun i => map (cons i) (index_paths rest)) (seq 0 (length vs))
  end.

(** Strict lexicographic order on index vectors. *)
Fixpoint lex_lt (a b : list nat) : Prop :=
  match a, b with
  | i :: a', j :: b' => i < j \/ (i = j /\ lex_lt a' b')
  | _, _ => False
  end.

(** An index vector picks a position in every key's value sequence. *)
Fixpoint valid_index (attrs : list (string * list string)) (ix : list nat) : Prop :=
  match attrs, ix with
  | [], [] => True
  | (_, vs) :: rest, i :: ix' => i < length vs /\ valid_index rest ix'
  | _, _ => False
  end.

Fixpoint decode (attrs : list (string * list string)) (ix : list nat) : list string :=
  match attrs, ix with
  | (_, vs) :: rest, i :: ix' => nth i vs "" :: decode rest ix'
  | _, _ => []
  end.


(** The combination selected by an index vector. *)
Definition combination_of (attrs : list (string * list string)) (ix : list nat)
  : gmap string string :=
  set_path (map fst attrs) (decode attrs ix) ∅.

Definition proto_or_outside (ks : list string) (x : string) : Prop :=
  x ∉ ks \/ x = "__proto__".

(** Value sequences chosen entry by entry, first key outermost. *)
Fixpoint entry_paths (E : list (string * list string)) : list (list string) :=
  match E with
  | [] => [[]]
  | (_, vs) :: E' => flat_map (fun v => map (cons v) (entry_paths E')) vs
  end.

(** How often the assignment [f] occurs in a list of combinations. *)
Definition occurrences (f : gmap string string) (L : list (gmap string string)) : nat :=
  length (filter (fun c => c = f) L).

Definition count_value (v : string) (vs : list string) : nat :=
  length (filter (fun w => w = v) vs).

(** Product of the sizes of all value sequences. *)
Definition size_product (A : list (string * list string)) : nat :=
  foldr (fun e acc => length (snd e) * acc) 1 A.

(** How many times the generator can reach [f]: the multiplicity of
    [f]'s value in each key's sequence; a ["__proto__"] key is never
    assigned, so each of its values leads to the same object. *)
Fixpoint multiplicity (E : list (string * list string)) (f : gmap string string) : nat :=
  match E with
  | [] => 1
  | (k, vs) :: E' =>
      (if decide (k = "__proto__") then length vs
       else match f !! k with Some v => count_value v vs | None => 0 end)
      * multiplicity E' f
  end.

Definition combo (E : list (string * list string)) (p : list string) : gmap string string :=
  set_path (map fst E) p ∅.

Definition color_size : list (string * list string) :=
  [("color", ["red"; "blue"]); ("size", ["S"; "M"; "L"])].

(* ------------------------------------------------------------------ *)
(** ** JSON values (the [Json] type of the generated database types) *)

(** Numbers are modelled as integers; no claim depends on fractions. *)
Inductive Json : Type :=
| JNull
| JBool (b : bool)
| JNum (n : Z)
| JStr (s : string)
| JArr (l : list Json)
| JObj (l : list (string * Json)).

(** JavaScript truthiness of a parsed JSON value. *)
Definition js_truthy (j : Json) : bool :=
  match j with
  | JNull => false
  | JBool b => b
  | JNum n => bool_decide (n <> 0%Z)
  | JStr s => bool_decide (s <> "")
  | JArr _ | JObj _ => true
  end.

(** [typeof j === 'object'] (true for [null], arrays and objects). *)
Definition js_typeof_object (j : Json) : bool :=
  match j with JNull | JArr _ | JObj _ => true | _ => false end.

Definition js_is_null (j : Json) : bool :=
  match j with JNull => true | _ => false end.

(** String-keyed properties inherited from [Object.prototype]. *)
Definition object_prototype_keys : list string :=
  ["constructor"; "__defineGetter__"; "__defineSetter__"; "hasOwnProperty";
   "__lookupGetter__"; "__lookupSetter__"; "isPrototypeOf"; "propertyIsEnumerable";
   "toString"; "valueOf"; "__proto__"; "toLocaleString"].

(** String-keyed properties of arrays besides their indices: [length]
    and those inherited from [Array.prototype]. *)
Definition array_prototype_keys : list string :=
  ["length"; "constructor"; "at"; "concat"; "copyWithin"; "fill"; "find"; "findIndex";
   "findLast"; "findLastIndex"; "lastIndexOf"; "pop"; "push"; "reverse"; "shift";
   "unshift"; "slice"; "sort"; "splice"; "includes"; "indexOf"; "join"; "keys";
   "entries"; "values"; "forEach"; "filter"; "flat"; "flatMap"; "map"; "every";
   "some"; "reduce"; "reduceRight"; "toLocaleString"; "toString"; "toReversed";
   "toSorted"; "toSpliced"; "with"].

Definition elem_b (k : string) (l : list string) : bool :=
  existsb (fun x => bool_decide (x = k)) l.

(** The index named by a property key: the [i] in [idx] whose canonical
    decimal string is [k]. *)
Fixpoint index_of_key (k : string) (idx : list nat) : option nat :=
  match idx with
  | [] => None
  | i :: idx' => if decide (pretty i = k) then Some i else index_of_key k idx'
  end.

(** [k in o] for an object-typed JSON value: own properties and the
    whole prototype chain. *)
Definition js_in (k : string) (o : Json) : bool :=
  match o with
  | JObj l => elem_b k (map fst l) || elem_b k object_prototype_keys
  | JArr l => bool_decide (is_Some (index_of_key k (seq 0 (length l))))
              || elem_b k array_prototype_keys || elem_b k object_prototype_keys
  | _ => false
  end.

(** [o[k]] where the result is only compared with a string: own data
    properties of objects (jsonb keeps one entry per key), array
    elements and string characters; inherited properties are functions
    or numbers and are rendered as [None]. *)
Definition js_get (o : Json) (k : string) : option Json :=
  match o with
  | JObj l => assoc_get k l
  | JArr l =>
      match index_of_key k (seq 0 (length l)) with
      | Some i => nth_error l i
      | None => None
      end
  | JStr s =>
      match index_of_key k (seq 0 (String.length s)) with
      | Some i => option_map (fun a => JStr (String a EmptyString)) (String.get i s)
      | None => None
      end
  | _ => None
  end.

(** The array index a property key denotes, if any: the canonical
    decimal string (no sign, no leading zero) of an integer below
    [2^32 - 1]. *)
Fixpoint decimal_value (k : string) (acc : N) : option N :=
  match k with
  | EmptyString => Some acc
  | String c k' =>
      let d := Ascii.nat_of_ascii c in
      if Nat.leb 48 d && Nat.leb d 57 then decimal_value k' (acc * 10 + N.of_nat (d - 48)%nat)%N
      else None
  end.

Definition array_index (k : string) : option N :=
  if decide (k = "0") then Some 0%N else
  match k with
  | EmptyString => None
  | String c _ =>
      if Nat.eqb (Ascii.nat_of_ascii c) 48 then None else
      match decimal_value k 0 with
      | Some n => if (n <? 4294967295)%N then Some n else None
      | None => None
      end
  end.

(** An own property created on an ordinary object: [Object.keys] lists
    the array-index keys first in ascending numeric order, then the other
    keys in creation order, and the list keeps that order. *)
Fixpoint insert_index {V} (n : N) (k : string) (v : V) (o : list (string * V))
  : list (string * V) :=
  match o with
  | [] => [(k, v)]
  | (k', v') :: o' =>
      match array_index k' with
      | Some n' => if (n' <? n)%N then (k', v') :: insert_index n k v o' else (k, v) :: o
      | None => (k, v) :: o
      end
  end.

Definition add_own_key {V} (o : list (string * V)) (k : string) (v : V) : list (string * V) :=
  match array_index k with
  | Some n => insert_index n k v o
  | None => o ++ [(k, v)]
  end.

(** [obj[k] = v] on an existing own key: the value changes in place. *)
Fixpoint assoc_set {V} (k : string) (v : V) (l : list (string * V)) : list (string * V) :=
  match l with
  | [] => [(k, v)]
  | (k', v') :: l' => if decide (k = k') then (k, v) :: l' else (k', v') :: assoc_set k v l'
  end.

(** [obj[k] = v] on a plain object [{}] used as a dictionary whose values
    are arrays (objects): assigning an object to ["__proto__"] replaces
    the prototype and creates no own property; an existing own key is
    updated in place; any other key becomes a new own property. *)
Definition js_set_obj {V} (o : list (string * V)) (k : string) (v : V) : list (string * V) :=
  if decide (k = "__proto__") then o
  else if decide (k ∈ map fst o) then assoc_set k v o
  else add_own_key o k v.

(** The order [Object.keys] lists two own keys in: array indices first,
    by ascending index; the other keys come after them. *)
Definition key_before (a b : string) : Prop :=
  match array_index a, array_index b with
  | Some x, Some y => (x <= y)%N
  | Some _, None => True
  | None, Some _ => False
  | None, None => True
  end.

(* ------------------------------------------------------------------ *)
(** ** Rows of the tables the actions read and write *)

Record AttrOption := { value : string; label : string }.

(** The columns of [product_attribute_schemas] other than [id],
    [created_at] and [updated_at] ([updated_at] is never read). *)
Record AttributeFields := {
  product_id : Z;
  attribute_key : string;
  attribute_label : string;
  attribute_type : string;
  options : option (list AttrOption);       (* Json | null, an array of {value, label} *)
  default_value : option Json;
  is_required : bool;
  is_variant_defining : bool;
  validation_rules : option Json;
  help_text : option string;
  sort_order : Z
}.

Record ProductAttributeSchema := {
  attr_id : Z;
  attr : AttributeFields;
  created_at : Z                              (* timestamp *)
}.

(** [ProductAttributeSchemaUpdate]: every column optional; a nullable
    column is [option (option _)] (absent, [null], or a value). *)
Record AttributeUpdate := {
  u_product_id : option Z;
  u_attribute_key : option string;
  u_attribute_label : option string;
  u_attribute_type : option string;
  u_options : option (option (list AttrOption));
  u_default_value : option (option Json);
  u_is_required : option bool;
  u_is_variant_defining : option bool;
  u_validation_rules : option (option Json);
  u_help_text : option (option string);
  u_sort_order : option Z
}.

(** [UpdateAttributeData = Partial<Update> & { id }]. *)
Record UpdateAttributeData := { upd_id : Z; upd : AttributeUpdate }.

(** [CreateAttributeData]: the Insert type without timestamps. *)
Record CreateAttributeData := {
  c_product_id : Z;
  c_attribute_key : string;
  c_attribute_label : string;
  c_attribute_type : string;
  c_options : option (list AttrOption);       (* undefined or null: None *)
  c_default_value : option Json;
  c_is_required : option bool;
  c_is_variant_defining : option bool;
  c_validation_rules : option Json;
  c_help_text : option string;
  c_sort_order : option Z
}.

Record ProductVariant := {
  variant_id : Z;
  variant_product_id : Z;
  attributes : Json
}.

Record Product := { product_row_id : Z; catalog_id : string }.
Record ProductCatalog := { catalog_row_id : Z; catalog_key : string; brand_id : Z }.
Record Brand := { brand_row_id : Z; user_id : string }.

(** Results of the nested selects
    [products(id, product_catalogs(id, brands(id, user_id)))]; a
    to-one embedding is an object or [null]. *)
Record BrandEmbed := { be_id : Z; be_user_id : string }.
Record CatalogEmbed := { ce_id : Z; ce_brands : option BrandEmbed }.
Record ProductEmbed := { pe_id : Z; pe_product_catalogs : option CatalogEmbed }.
Record SchemaEmbed := {
  se_id : Z;
  se_attribute_key : string;
  se_products : option ProductEmbed
}.

(* ------------------------------------------------------------------ *)
(** ** Effects: store calls that may throw, [try]/[catch] *)

(** What a [throw] carries: an [Error] with its message, or something
    else ([error instanceof Error] is false). *)
Inductive Thrown := ErrorObj (message : string) | NonError.

Inductive Result (A : Type) := Ok (a : A) | Throw (e : Thrown).
Arguments Ok {A} a.
Arguments Throw {A} e.

(** An async computation over a store state [S]: it returns a value
    or throws (its promise rejects), and in both cases leaves the store
    in a new state (writes already made are not undone). *)
Definition M (S A : Type) : Type := S -> Result A * S.

Definition retM {S A} (a : A) : M S A := fun s => (Ok a, s).

Definition bindM {S A B} (m : M S A) (k : A -> M S B) : M S B :=
  fun s => match m s with
           | (Ok a, s') => k a s'
           | (Throw e, s') => (Throw e, s')
           end.

Definition throwM {S A} (e : Thrown) : M S A := fun s => (Throw e, s).

(** [try { body } catch (error) { return handler(error) }] *)
Definition try_catch {S A} (body : M S A) (handler : Thrown -> A) : M S A :=
  fun s => match body s with
           | (Ok a, s') => (Ok a, s')
           | (Throw e, s') => (Ok (handler e), s')
           end.

Notation "'let!' x := c1 'in' c2" := (bindM c1 (fun x => c2))
  (at level 200, x name, c1 at level 100, c2 at level 200).

(** [Promise.all]: every request is already issued when [Promise.all]
    is called, and the store answers them in an order of its own.
    [arrival] lists the positions of [l] in the order their answers
    arrive (a permutation of [0 .. length l - 1]). Each answer fills the
    slot of its position; the combined promise rejects with the first
    rejection to arrive, and otherwise resolves with the values in the
    order of [l]. *)
Fixpoint serve {S A} (l : list (M S A)) (arrival : list nat)
    (slots : list (option (Result A))) (err : option Thrown) (s : S)
    : list (option (Result A)) * option Thrown * S :=
  match arrival with
  | [] => (slots, err, s)
  | i :: arrival' =>
      match l !! i with
      | Some m =>
          let '(r, s1) := m s in
          let err' := match err, r with None, Throw e => Some e | _, _ => err end in
          serve l arrival' (<[i := Some r]> slots) err' s1
      | None => serve l arrival' slots err s
      end
  end.

Fixpoint collect {A} (rs : list (Result A)) : Result (list A) :=
  match rs with
  | [] => Ok []
  | Ok a :: rs' => match collect rs' with Ok l => Ok (a :: l) | Throw e => Throw e end
  | Throw e :: _ => Throw e
  end.

Definition promise_all {S A} (arrival : list nat) (l : list (M S A)) : M S (list A) :=
  fun s =>
    let '(slots, err, s') := serve l arrival (replicate (length l) None) None s in
    (match err with
     | Some e => Throw e
     | None => collect (map (default (Throw NonError)) slots)
     end, s').

(** The [{ data, error }] answer of a PostgREST query. *)
Record Resp (A : Type) := { resp_data : option A; resp_error : option string }.
Arguments resp_data {A} r.
Arguments resp_error {A} r.

(** The store client: one method per query chain issued by the source.
    Any implementation is allowed: a method may answer with data, with
    an error, or throw. *)
Record SupabaseClient (S : Type) := {
  (* await createClient() *)
  createClient : M S unit;
  (* (await supabase.auth.getUser()).data.user?.id *)
  getUser : M S (option string);
  (* from('products').select(id, product_catalogs(id, brands(id, user_id))).eq('id', p).single() *)
  select_product_owner : Z -> M S (Resp ProductEmbed);
  (* from('product_attribute_schemas').select(id, attribute_key, products(...)).eq('id', i).single() *)
  select_schema_owner : Z -> M S (Resp SchemaEmbed);
  (* .select('id').eq('product_id', p).eq('attribute_key', k)[.neq('id', i)].single();
     [None] for [p] is the value [undefined] *)
  select_schema_id_by_key : option Z -> string -> option Z -> M S (Resp Z);
  (* .insert(row).select().single() *)
  insert_schema : AttributeFields -> M S (Resp ProductAttributeSchema);
  (* .update(u).eq('id', i).select().single() *)
  update_schema_select : Z -> AttributeUpdate -> M S (Resp ProductAttributeSchema);
  (* .update(u).eq('id', i) *)
  update_schema : Z -> AttributeUpdate -> M S (Resp unit);
  (* .delete().eq('id', i) *)
  delete_schema : Z -> M S (Resp unit);
  (* from('product_variants').select('id, attributes').eq('product_id', p) *)
  select_variants : Z -> M S (Resp (list ProductVariant));
  (* .select('*').eq('product_id', p).order('sort_order').order('created_at') *)
  select_schemas_ordered : Z -> M S (Resp (list ProductAttributeSchema));
  (* .select('*').eq('id', i).single() *)
  select_schema_by_id : Z -> M S (Resp ProductAttributeSchema)
}.
Arguments createClient {S} _.
Arguments getUser {S} _.
Arguments select_product_owner {S} _ _.
Arguments select_schema_owner {S} _ _.
Arguments select_schema_id_by_key {S} _ _ _ _.
Arguments insert_schema {S} _ _.
Arguments update_schema_select {S} _ _ _.
Arguments update_schema {S} _ _ _.
Arguments delete_schema {S} _ _.
Arguments select_variants {S} _ _.
Arguments select_schemas_ordered {S} _ _.
Arguments select_schema_by_id {S} _ _.

(** The response envelope of the mutating actions. *)
Inductive Envelope (A : Type) :=
| Success (data : option A)       (* { success: true, data? } *)
| Failure (error : string).       (* { success: false, error } *)
Arguments Success {A} data.
Arguments Failure {A} error.

Definition error_message (e : Thrown) : string :=
  match e with ErrorObj m => m | NonError => "Unknown error occurred" end.

(** [product?.product_catalogs?.brands?.user_id], kept when truthy. *)
Definition owner_of_product (p : option ProductEmbed) : option string :=
  match p with
  | Some pe =>
      match pe_product_catalogs pe with
      | Some ce =>
          match ce_brands ce with
          | Some be => if decide (be_user_id be = "") then None else Some (be_user_id be)
          | None => None
          end
      | None => None
      end
  | None => None
  end.

(** [attribute?.products?...user_id] with the attribute key and the
    product id the later code reads. *)
Definition owner_of_schema (a : option SchemaEmbed) : option (string * Z * string) :=
  match a with
  | Some se =>
      match se_products se with
      | Some pe =>
          match owner_of_product (Some pe) with
          | Some owner => Some (se_attribute_key se, pe_id pe, owner)
          | None => None
          end
      | None => None
      end
  | None => None
  end.

(** [!user || owner !== user.id] *)
Definition unauthorized (user : option string) (owner : string) : bool :=
  match user with None => true | Some uid => bool_decide (owner <> uid) end.

Definition empty_update : AttributeUpdate :=
  {| u_product_id := None; u_attribute_key := None; u_attribute_label := None;
     u_attribute_type := None; u_options := None; u_default_value := None;
     u_is_required := None; u_is_variant_defining := None; u_validation_rules := None;
     u_help_text := None; u_sort_order := None |}.

Definition sort_order_update (so : Z) : AttributeUpdate :=
  {| u_product_id := None; u_attribute_key := None; u_attribute_label := None;
     u_attribute_type := None; u_options := None; u_default_value := None;
     u_is_required := None; u_is_variant_defining := None; u_validation_rules := None;
     u_help_text := None; u_sort_order := Some so |}.

Definition options_update (os : list AttrOption) : AttributeUpdate :=
  {| u_product_id := None; u_attribute_key := None; u_attribute_label := None;
     u_attribute_type := None; u_options := Some (Some os); u_default_value := None;
     u_is_required := None; u_is_variant_defining := None; u_validation_rules := None;
     u_help_text := None; u_sort_order := None |}.

(** The row inserted by [createProductAttribute], with its defaults:
    [options || []], [is_required || false], [is_variant_defining ?? true],
    [validation_rules || {}], [sort_order || 0]. *)
Definition insert_fields (d : CreateAttributeData) : AttributeFields :=
  {| product_id := c_product_id d;
     attribute_key := c_attribute_key d;
     attribute_label := c_attribute_label d;
     attribute_type := c_attribute_type d;
     options := Some (default [] (c_options d));
     default_value := c_default_value d;
     is_required := match c_is_required d with Some true => true | _ => false end;
     is_variant_defining := default true (c_is_variant_defining d);
     validation_rules :=
       match c_validation_rules d with
       | Some j => if js_truthy j then Some j else Some (JObj [])
       | None => Some (JObj [])
       end;
     help_text := c_help_text d;
     sort_order := default 0%Z (c_sort_order d) |}.

(** [variant.attributes && typeof variant.attributes === 'object'
     && variant.attributes !== null && key in variant.attributes] *)
Definition variant_has_key (key : string) (v : ProductVariant) : bool :=
  js_truthy (attributes v) && js_typeof_object (attributes v)
  && negb (js_is_null (attributes v)) && js_in key (attributes v).

(** [variants?.some(...)]: [undefined] (falsy) when [data] is [null]. *)
Definition attribute_in_use (key : string) (vs : option (list ProductVariant)) : bool :=
  match vs with
  | Some l => existsb (variant_has_key key) l
  | None => false
  end.

(** [attrs && attrs[key] === optionValue] *)
Definition variant_has_value (key v : string) (var : ProductVariant) : bool :=
  js_truthy (attributes var)
  && match js_get (attributes var) key with
     | Some (JStr s) => bool_decide (s = v)
     | _ => false
     end.

Definition option_in_use (key v : string) (vs : option (list ProductVariant)) : bool :=
  match vs with
  | Some l => existsb (variant_has_value key v) l
  | None => false
  end.

(** The [TypeError] thrown by [null.some(...)] and the like. *)
Definition null_method_error (m : string) : Thrown :=
  ErrorObj ("Cannot read properties of null (reading '" ++ m ++ "')")%string.

(** [options.map((option) => option.value)] *)
Definition option_values (os : list AttrOption) : list string := map value os.

Section Actions.

Context {S : Type} (C : SupabaseClient S).

Definition fail_with {A} (m : string) : M S A := throwM (ErrorObj m).

Definition catch_envelope {A} (body : M S (Envelope A)) : M S (Envelope A) :=
  try_catch body (fun e => Failure (error_message e)).

Definition createProductAttribute (data : CreateAttributeData)
  : M S (Envelope ProductAttributeSchema) :=
  let! _ := createClient C in
  catch_envelope (
    let! rp := select_product_owner C (c_product_id data) in
    match owner_of_product (resp_data rp) with
    | None => fail_with "Product not found or access denied"
    | Some owner =>
      let! user := getUser C in
      if unauthorized user owner then fail_with "Unauthorized" else
      let! existing := select_schema_id_by_key C (Some (c_product_id data))
                         (c_attribute_key data) None in
      match resp_data existing with
      | Some _ => fail_with "Attribute key already exists for this product"
      | None =>
        let! r := insert_schema C (insert_fields data) in
        match resp_error r with
        | Some m => fail_with m
        | None => retM (Success (resp_data r))
        end
      end
    end).

(** The uniqueness re-check, run when [data.attribute_key] is truthy and
    differs from the stored key; [data.product_id!] is [undefined] when
    the caller does not supply it. *)
Definition update_key_check (data : UpdateAttributeData) (stored_key : string) : M S unit :=
  match u_attribute_key (upd data) with
  | Some k =>
      if decide (k <> "" /\ k <> stored_key) then
        let! existing := select_schema_id_by_key C (u_product_id (upd data)) k
                           (Some (upd_id data)) in
        match resp_data existing with
        | Some _ => fail_with "Attribute key already exists for this product"
        | None => retM tt
        end
      else retM tt
  | None => retM tt
  end.

Definition updateProductAttribute (data : UpdateAttributeData)
  : M S (Envelope ProductAttributeSchema) :=
  let! _ := createClient C in
  catch_envelope (
    let! ra := select_schema_owner C (upd_id data) in
    match owner_of_schema (resp_data ra) with
    | None => fail_with "Attribute not found or access denied"
    | Some (stored_key, _, owner) =>
      let! user := getUser C in
      if unauthorized user owner then fail_with "Unauthorized" else
      let! _ := update_key_check data stored_key in
      let! r := update_schema_select C (upd_id data) (upd data) in
      match resp_error r with
      | Some m => fail_with m
      | None => retM (Success (resp_data r))
      end
    end).

Definition deleteProductAttribute (attributeId : Z) : M S (Envelope unit) :=
  let! _ := createClient C in
  catch_envelope (
    let! ra := select_schema_owner C attributeId in
    match owner_of_schema (resp_data ra) with
    | None => fail_with "Attribute not found or access denied"
    | Some (key, pid, owner) =>
      let! user := getUser C in
      if unauthorized user owner then fail_with "Unauthorized" else
      let! rv := select_variants C pid in
      if attribute_in_use key (resp_data rv)
      then fail_with "Cannot delete attribute that is used by variants" else
      let! r := delete_schema C attributeId in
      match resp_error r with
      | Some m => fail_with m
      | None => retM (Success None)
      end
    end).

Definition getProductAttributes (productId : Z) : M S (list ProductAttributeSchema) :=
  let! _ := createClient C in
  try_catch (
    let! r := select_schemas_ordered C productId in
    match resp_error r with
    | Some m => fail_with m
    | None => retM (default [] (resp_data r))
    end) (fun _ => []).

Definition getProductAttributeById (attributeId : Z) : M S (option ProductAttributeSchema) :=
  let! _ := createClient C in
  try_catch (
    let! r := select_schema_by_id C attributeId in
    match resp_error r with
    | Some _ => retM None
    | None => retM (resp_data r)
    end) (fun _ => None).

Definition updateAttributeOrder (attributeOrders : list (Z * Z)) (arrival : list nat)
  : M S (Envelope unit) :=
  let! _ := createClient C in
  catch_envelope (
    let! results := promise_all arrival
      (map (fun '(id, so) => update_schema C id (sort_order_update so)) attributeOrders) in
    if existsb (fun r => bool_decide (is_Some (resp_error r))) results
    then fail_with "Failed to update attribute order"
    else retM (Success None)).

(** [if (fetchError || !attribute) throw ...]: the fetched row. *)
Definition fetch_attribute (attributeId : Z) : M S ProductAttributeSchema :=
  let! r := select_schema_by_id C attributeId in
  match resp_error r, resp_data r with
  | None, Some a => retM a
  | _, _ => fail_with "Attribute not found"
  end.

Definition addAttributeOption (attributeId : Z) (option : AttrOption) : M S (Envelope unit) :=
  let! _ := createClient C in
  catch_envelope (
    let! a := fetch_attribute attributeId in
    match options (attr a) with
    | None => throwM (null_method_error "some")
    | Some existingOptions =>
      if existsb (fun e => bool_decide (value e = value option)) existingOptions
      then fail_with "Option value already exists" else
      let! r := update_schema C attributeId (options_update (existingOptions ++ [option])) in
      match resp_error r with
      | Some m => fail_with m
      | None => retM (Success None)
      end
    end).

Definition removeAttributeOption (attributeId : Z) (optionValue : string) : M S (Envelope unit) :=
  let! _ := createClient C in
  catch_envelope (
    let! a := fetch_attribute attributeId in
    match options (attr a) with
    | None => throwM (null_method_error "filter")
    | Some existingOptions =>
      let updatedOptions :=
        List.filter (fun o => negb (bool_decide (value o = optionValue))) existingOptions in
      if Nat.eqb (length updatedOptions) (length existingOptions)
      then fail_with "Option not found" else
      let! rv := select_variants C (product_id (attr a)) in
      if option_in_use (attribute_key (attr a)) optionValue (resp_data rv)
      then fail_with "Cannot remove option that is used by variants" else
      let! r := update_schema C attributeId (options_update updatedOptions) in
      match resp_error r with
      | Some m => fail_with m
      | None => retM (Success None)
      end
    end).

(** [attributes.forEach(...)] into a fresh [{}]: the own entries in the
    order [Object.keys] gives them; a [null] [options] throws. *)
Fixpoint build_combinations (acc : list (string * list string))
    (attrs : list ProductAttributeSchema) : M S (list (string * list string)) :=
  match attrs with
  | [] => retM acc
  | a :: rest =>
      match options (attr a) with
      | None => throwM (null_method_error "map")
      | Some os => build_combinations
                     (js_set_obj acc (attribute_key (attr a)) (option_values os)) rest
      end
  end.

Definition getAttributeCombinations (productId : Z) : M S (list (string * list string)) :=
  let! _ := createClient C in
  try_catch (
    let! attrs := getProductAttributes productId in
    build_combinations [] attrs) (fun _ => []).

End Actions.

(* ------------------------------------------------------------------ *)
(** ** The store as tables *)

(** The rows the actions touch, the clock for [created_at], the next
    identity value and the user of the session. The store enforces the
    foreign key of [product_attribute_schemas.product_id] and no
    uniqueness of [(product_id, attribute_key)]. *)
Record DB := {
  db_products : list Product;
  db_catalogs : list ProductCatalog;
  db_brands : list Brand;
  db_schemas : list ProductAttributeSchema;
  db_variants : list ProductVariant;
  db_next_id : Z;
  db_now : Z;
  db_session_user : option string
}.

Definition with_schemas (db : DB) (l : list ProductAttributeSchema) : DB :=
  {| db_products := db_products db; db_catalogs := db_catalogs db;
     db_brands := db_brands db; db_schemas := l; db_variants := db_variants db;
     db_next_id := db_next_id db; db_now := db_now db;
     db_session_user := db_session_user db |}.

Definition with_variants (db : DB) (l : list ProductVariant) : DB :=
  {| db_products := db_products db; db_catalogs := db_catalogs db;
     db_brands := db_brands db; db_schemas := db_schemas db; db_variants := l;
     db_next_id := db_next_id db; db_now := db_now db;
     db_session_user := db_session_user db |}.

Definition ok_resp {A} (a : A) : Resp A := {| resp_data := Some a; resp_error := None |}.
Definition err_resp {A} (m : string) : Resp A := {| resp_data := None; resp_error := Some m |}.

(** [.single()]: exactly one row, or an error with [data: null]. *)
Definition single {A} (l : list A) : Resp A :=
  match l with
  | [x] => ok_resp x
  | _ => err_resp "JSON object requested, multiple (or no) rows returned"
  end.

Definition brand_embed (db : DB) (bid : Z) : option BrandEmbed :=
  option_map (fun b => {| be_id := brand_row_id b; be_user_id := user_id b |})
    (List.find (fun b => bool_decide (brand_row_id b = bid)) (db_brands db)).

Definition catalog_embed (db : DB) (key : string) : option CatalogEmbed :=
  option_map (fun c => {| ce_id := catalog_row_id c; ce_brands := brand_embed db (brand_id c) |})
    (List.find (fun c => bool_decide (catalog_key c = key)) (db_catalogs db)).

Definition product_embed (db : DB) (p : Product) : ProductEmbed :=
  {| pe_id := product_row_id p; pe_product_catalogs := catalog_embed db (catalog_id p) |}.

Definition find_product (db : DB) (pid : Z) : option Product :=
  List.find (fun p => bool_decide (product_row_id p = pid)) (db_products db).

Definition schema_embed (db : DB) (s : ProductAttributeSchema) : SchemaEmbed :=
  {| se_id := attr_id s; se_attribute_key := attribute_key (attr s);
     se_products := option_map (product_embed db) (find_product db (product_id (attr s))) |}.

Definition schemas_with_id (db : DB) (i : Z) : list ProductAttributeSchema :=
  List.filter (fun s => bool_decide (attr_id s = i)) (db_schemas db).

Definition schemas_of_product (db : DB) (pid : Z) : list ProductAttributeSchema :=
  List.filter (fun s => bool_decide (product_id (attr s) = pid)) (db_schemas db).

(** [.eq('product_id', p).eq('attribute_key', k)] and [.neq('id', i)]. *)
Definition key_matches (pid : Z) (k : string) (excl : option Z) (s : ProductAttributeSchema) : bool :=
  bool_decide (product_id (attr s) = pid) && bool_decide (attribute_key (attr s) = k)
  && match excl with Some i => bool_decide (attr_id s <> i) | None => true end.

Definition apply_update (u : AttributeUpdate) (f : AttributeFields) : AttributeFields :=
  {| product_id := default (product_id f) (u_product_id u);
     attribute_key := default (attribute_key f) (u_attribute_key u);
     attribute_label := default (attribute_label f) (u_attribute_label u);
     attribute_type := default (attribute_type f) (u_attribute_type u);
     options := default (options f) (u_options u);
     default_value := default (default_value f) (u_default_value u);
     is_required := default (is_required f) (u_is_required u);
     is_variant_defining := default (is_variant_defining f) (u_is_variant_defining u);
     validation_rules := default (validation_rules f) (u_validation_rules u);
     help_text := default (help_text f) (u_help_text u);
     sort_order := default (sort_order f) (u_sort_order u) |}.

Definition update_rows (i : Z) (u : AttributeUpdate) (l : list ProductAttributeSchema)
  : list ProductAttributeSchema :=
  map (fun s => if decide (attr_id s = i)
                then {| attr_id := attr_id s; attr := apply_update u (attr s);
                        created_at := created_at s |}
                else s) l.

(** [ORDER BY sort_order, created_at] *)
Definition schema_le (a b : ProductAttributeSchema) : Prop :=
  (sort_order (attr a) < sort_order (attr b))%Z
  \/ (sort_order (attr a) = sort_order (attr b) /\ (created_at a <= created_at b)%Z).

Global Instance schema_le_dec a b : Decision (schema_le a b).
Proof. unfold schema_le. apply _. Defined.

Definition db_insert (f : AttributeFields) : M DB (Resp ProductAttributeSchema) :=
  fun db =>
    match find_product db (product_id f) with
    | None => (Ok (err_resp "insert or update violates foreign key constraint"), db)
    | Some _ =>
        let row := {| attr_id := db_next_id db; attr := f; created_at := db_now db |} in
        (Ok (ok_resp row),
         {| db_products := db_products db; db_catalogs := db_catalogs db;
            db_brands := db_brands db; db_schemas := db_schemas db ++ [row];
            db_variants := db_variants db; db_next_id := (db_next_id db + 1)%Z;
            db_now := (db_now db + 1)%Z; db_session_user := db_session_user db |})
    end.

Definition table_client : SupabaseClient DB := {|
  createClient := retM tt;
  getUser := fun db => (Ok (db_session_user db), db);
  select_product_owner := fun pid db =>
    (Ok (single (map (product_embed db)
                   (List.filter (fun p => bool_decide (product_row_id p = pid))
                      (db_products db)))), db);
  select_schema_owner := fun i db => (Ok (single (map (schema_embed db) (schemas_with_id db i))), db);
  select_schema_id_by_key := fun pid k excl db =>
    match pid with
    | None => (Ok (err_resp "invalid input syntax for type bigint"), db)
    | Some p => (Ok (single (map attr_id (List.filter (key_matches p k excl) (db_schemas db)))), db)
    end;
  insert_schema := db_insert;
  update_schema_select := fun i u db =>
    let db' := with_schemas db (update_rows i u (db_schemas db)) in
    (Ok (single (schemas_with_id db' i)), db');
  update_schema := fun i u db =>
    (Ok (ok_resp tt), with_schemas db (update_rows i u (db_schemas db)));
  delete_schema := fun i db =>
    (Ok (ok_resp tt),
     with_schemas db (List.filter (fun s => negb (bool_decide (attr_id s = i))) (db_schemas db)));
  select_variants := fun pid db =>
    (Ok (ok_resp (List.filter (fun v => bool_decide (variant_product_id v = pid)) (db_variants db))), db);
  select_schemas_ordered := fun pid db =>
    (Ok (ok_resp (merge_sort schema_le (schemas_of_product db pid))), db);
  select_schema_by_id := fun i db => (Ok (single (schemas_with_id db i)), db)
|}.

(** The owner the store reports for a product and for an attribute
    schema: the [user_id] the ownership selects return, when truthy. *)
Definition product_owner (db : DB) (pid : Z) : option string :=
  owner_of_product (resp_data (single (map (product_embed db)
    (List.filter (fun p => bool_decide (product_row_id p = pid)) (db_products db))))).

Definition schema_owner (db : DB) (i : Z) : option (string * Z * string) :=
  owner_of_schema (resp_data (single (map (schema_embed db) (schemas_with_id db i)))).

Definition schema_owner_id (db : DB) (i : Z) : option string :=
  option_map snd (schema_owner db i).

(** The caller is not the owner ([!user || owner !== user.id]). *)
Definition not_owner (user owner : option string) : Prop :=
  user = None \/ owner <> user.

(** The message of the access check for a missing or foreign owner. *)
Definition denied_message (owner : option string) (missing : string) : string :=
  match owner with Some _ => "Unauthorized" | None => missing end.

(* ------------------------------------------------------------------ *)
(** ** Sample data *)

Definition opt (v : string) : AttrOption := {| value := v; label := v |}.

Definition schema_fields (pid : Z) (k : string) (os : option (list AttrOption)) (so : Z)
  : AttributeFields :=
  {| product_id := pid; attribute_key := k; attribute_label := k; attribute_type := "select";
     options := os; default_value := None; is_required := false; is_variant_defining := true;
     validation_rules := None; help_text := None; sort_order := so |}.

Definition schema_row (i pid : Z) (k : string) (os : option (list AttrOption)) (so t : Z)
  : ProductAttributeSchema :=
  {| attr_id := i; attr := schema_fields pid k os so; created_at := t |}.

(** Products 1 and 2 in catalog ["main"] of brand 5, owned by ["u1"]. *)
Definition sample_store (schemas : list ProductAttributeSchema) (vars : list ProductVariant)
    (user : option string) : DB :=
  {| db_products := [ {| product_row_id := 1; catalog_id := "main" |};
                      {| product_row_id := 2; catalog_id := "main" |} ];
     db_catalogs := [ {| catalog_row_id := 10; catalog_key := "main"; brand_id := 5 |} ];
     db_brands := [ {| brand_row_id := 5; user_id := "u1" |} ];
     db_schemas := schemas; db_variants := vars; db_next_id := 200; db_now := 1000;
     db_session_user := user |}.

Definition create_data (pid : Z) (k : string) : CreateAttributeData :=
  {| c_product_id := pid; c_attribute_key := k; c_attribute_label := k;
     c_attribute_type := "select"; c_options := None; c_default_value := None;
     c_is_required := None; c_is_variant_defining := None; c_validation_rules := None;
     c_help_text := None; c_sort_order := None |}.

Definition key_update (i : Z) (k : string) : UpdateAttributeData :=
  {| upd_id := i;
     upd := {| u_product_id := None; u_attribute_key := Some k; u_attribute_label := None;
               u_attribute_type := None; u_options := None; u_default_value := None;
               u_is_required := None; u_is_variant_defining := None;
               u_validation_rules := None; u_help_text := None; u_sort_order := None |} |}.

Definition variant (i pid : Z) (kvs : list (string * string)) : ProductVariant :=
  {| variant_id := i; variant_product_id := pid;
     attributes := JObj (map (fun '(k, v) => (k, JStr v)) kvs) |}.

(** Run two actions one after the other on the same store. *)
Definition then_run {A B} (m1 : M DB A) (m2 : M DB B) : M DB (A * B) :=
  fun db => match m1 db with
            | (Ok a, db1) => match m2 db1 with
                             | (Ok b, db2) => (Ok (a, b), db2)
                             | (Throw e, db2) => (Throw e, db2)
                             end
            | (Throw e, db1) => (Throw e, db1)
            end.

(** A client whose [createClient()] rejects, e.g. when the request
    cookies cannot be read. *)
Definition failing_client : SupabaseClient DB := {|
  createClient := throwM (ErrorObj "cookies was called outside a request scope");
  getUser := getUser table_client;
  select_product_owner := select_product_owner table_client;
  select_schema_owner := select_schema_owner table_client;
  select_schema_id_by_key := select_schema_id_by_key table_client;
  insert_schema := insert_schema table_client;
  update_schema_select := update_schema_select table_client;
  update_schema := update_schema table_client;
  delete_schema := delete_schema table_client;
  select_variants := select_variants table_client;
  select_schemas_ordered := select_schemas_ordered table_client;
  select_schema_by_id := select_schema_by_id table_client
|}.

(** A client whose [createClient()] succeeds and whose every query
    rejects, e.g. when the store is unreachable. *)
Definition offline_client : SupabaseClient DB := {|
  createClient := retM tt;
  getUser := throwM (ErrorObj "fetch failed");
  select_product_owner := fun _ => throwM (ErrorObj "fetch failed");
  select_schema_owner := fun _ => throwM (ErrorObj "fetch failed");
  select_schema_id_by_key := fun _ _ _ => throwM (ErrorObj "fetch failed");
  insert_schema := fun _ => throwM (ErrorObj "fetch failed");
  update_schema_select := fun _ _ => throwM (ErrorObj "fetch failed");
  update_schema := fun _ _ => throwM (ErrorObj "fetch failed");
  delete_schema := fun _ => throwM (ErrorObj "fetch failed");
  select_variants := fun _ => throwM (ErrorObj "fetch failed");
  select_schemas_ordered := fun _ => throwM (ErrorObj "fetch failed");
  select_schema_by_id := fun _ => throwM (ErrorObj "fetch failed")
|}.

(** A row after [.update(u)]. *)
Definition updated_row (u : AttributeUpdate) (s : ProductAttributeSchema) : ProductAttributeSchema :=
  {| attr_id := attr_id s; attr := apply_update u (attr s); created_at := created_at s |}.

(** The entry [combinations[attr.attribute_key] = options.map(o => o.value)]. *)
Definition combination_entry (s : ProductAttributeSchema) : string * list string :=
  (attribute_key (attr s), option_values (default [] (options (attr s)))).

Global Instance schema_le_total : Total schema_le.
Proof. intros a b. unfold schema_le. lia. Qed.

Global Instance schema_le_trans : Transitive schema_le.
Proof. intros a b c. unfold schema_le. lia. Qed.

(* ------------------------------------------------------------------ *)
(** ** The store functions called through [supabase.rpc] *)

Record RpcMethods (S : Type) := {
  (* rpc('get_product_attribute_schema', { p_product_id }) *)
  rpc_get_product_attribute_schema : Z -> M S (Resp Json);
  (* rpc('validate_attribute_values', { p_product_id, p_attribute_values }) *)
  rpc_validate_attribute_values : Z -> Json -> M S (Resp Json)
}.
Arguments rpc_get_product_attribute_schema {S} _ _.
Arguments rpc_validate_attribute_values {S} _ _ _.

(** [{ success: true, valid: data }] or [{ success: false, error }]. *)
Inductive ValidationResult :=
| Validated (valid : option Json)
| ValidationFailed (error : string).

Section Rpc.

Context {S : Type} (C : SupabaseClient S) (R : RpcMethods S).

Definition getProductAttributeSchema (productId : Z) : M S Json :=
  let! _ := createClient C in
  try_catch (
    let! r := rpc_get_product_attribute_schema R productId in
    match resp_error r with
    | Some m => fail_with m
    | None => retM (match resp_data r with      (* data || {} *)
                    | Some j => if js_truthy j then j else JObj []
                    | None => JObj []
                    end)
    end) (fun _ => JObj []).

Definition validateAttributeValues (productId : Z) (attributeValues : Json)
  : M S ValidationResult :=
  let! _ := createClient C in
  try_catch (
    let! r := rpc_validate_attribute_values R productId attributeValues in
    match resp_error r with
    | Some m => fail_with m
    | None => retM (Validated (resp_data r))
    end) (fun e => ValidationFailed (error_message e)).

End Rpc.

(** The store with another session user. *)
Definition with_user (db : DB) (u : option string) : DB :=
  {| db_products := db_products db; db_catalogs := db_catalogs db;
     db_brands := db_brands db; db_schemas := db_schemas db; db_variants := db_variants db;
     db_next_id := db_next_id db; db_now := db_now db; db_session_user := u |}.

(** The sort order [updateAttributeOrder attributeOrders] leaves on the
    row [i]: the last pair naming [i], if any. *)
Definition order_for (attributeOrders : list (Z * Z)) (i : Z) : option Z :=
  fold_left (fun acc '(j, so) => if decide (j = i) then Some so else acc) attributeOrders None.

Definition reorder_row (attributeOrders : list (Z * Z)) (s : ProductAttributeSchema)
  : ProductAttributeSchema :=
  match order_for attributeOrders (attr_id s) with
  | Some so => updated_row (sort_order_update so) s
  | None => s
  end.

(** The write of request number [i] of [updateAttributeOrder attributeOrders]
    on the rows of the schema table. *)
Definition apply_order_update (attributeOrders : list (Z * Z))
    (rows : list ProductAttributeSchema) (i : nat) : list ProductAttributeSchema :=
  match attributeOrders !! i with
  | Some (id, so) => update_rows id (sort_order_update so) rows
  | None => rows
  end.

(** A database side for the two [supabase.rpc] calls: the schema of
    every product is one select attribute, and every validation is
    refused. *)
Definition sample_rpc : RpcMethods DB := {|
  rpc_get_product_attribute_schema := fun _ db =>
    (Ok (ok_resp (JObj [("color", JArr [JStr "red"])])), db);
  rpc_validate_attribute_values := fun _ _ db =>
    (Ok (err_resp "missing required attribute"), db) |}.

(** [reorder_row] with the order of each id given by [f]. *)
Definition reorder_with (f : Z -> option Z) (s : ProductAttributeSchema) : ProductAttributeSchema :=
  match f (attr_id s) with
  | Some so => updated_row (sort_order_update so) s
  | None => s
  end.

(* ------------------------------------------------------------------ *)
(** * Proofs *)

Lemma map_flat_map {X Y Z} (f : Y -> Z) (g : X -> list Y) (l : list X) :
  map f (flat_map g l) = flat_map (fun x => map f (g x)) l.
Proof. induction l as [|x l IH]; simpl; [done|]. by rewrite map_app, IH. Qed.

Section GeneratorProofs.

Variable A : list (string * list string).


(** Assignments into the shared object only touch the keys being
    enumerated, and never ["__proto__"]. *)
Lemma js_set_prim_other c k v x :
  x <> k \/ x = "__proto__" -> js_set_prim c k v !! x = c !! x.
Proof.
  unfold js_set_prim. intros H. case_decide; [done|].
  destruct H as [H|H]; [by rewrite lookup_insert_ne|].
  subst x. by rewrite lookup_insert_ne.
Qed.

Lemma generateCombination_current ks s x :
  proto_or_outside ks x ->
  currentCombination (generateCombination A ks s) !! x = currentCombination s !! x.
Proof.
  revert s. induction ks as [|k ks IH]; intros s Hx; simpl; [done|].
  case_decide; [done|].
  destruct (assoc_get k A) as [vs|]; [|done].
  revert s. induction vs as [|v vs IHvs]; intros s; simpl; [done|].
  rewrite IHvs, IH.
  - simpl. apply js_set_prim_other.
    destruct Hx as [Hx|Hx]; [left; set_solver | by right].
  - destruct Hx as [Hx|Hx]; [left; set_solver | by right].
Qed.

Lemma set_path_agree ks p c1 c2 :
  length p = length ks ->
  (forall x, proto_or_outside ks x -> c1 !! x = c2 !! x) ->
  set_path ks p c1 = set_path ks p c2.
Proof.
  revert p c1 c2. induction ks as [|k ks IH]; intros [|v p] c1 c2 Hlen Hag;
    simpl in *; try lia.
  - apply map_eq. intros x. apply Hag. left. set_solver.
  - apply IH; [lia|]. intros x Hx. unfold js_set_prim.
    case_decide as Hp.
    + apply Hag. destruct Hx as [Hx|Hx]; [|by right].
      destruct (decide (x = k)) as [->|]; [by right|left; set_solver].
    + destruct (decide (x = k)) as [->|Hne].
      * by rewrite !lookup_insert_eq.
      * rewrite !lookup_insert_ne by done. apply Hag.
        destruct Hx as [Hx|Hx]; [left; set_solver|by right].
Qed.


Lemma value_paths_length ks p : In p (value_paths A ks) -> length p = length ks.
Proof.
  revert p. induction ks as [|k ks IH]; intros p Hp; simpl in *.
  - destruct Hp as [<-|[]]; done.
  - destruct (assoc_get k A); [|done].
    apply in_flat_map in Hp as (v & _ & Hp).
    apply in_map_iff in Hp as (q & <- & Hq). simpl. by rewrite (IH q).
Qed.



Lemma generateCombination_out ks s :
  combinations (generateCombination A ks s) = combinations s ++ emitted A ks (currentCombination s).
Proof.
  revert s. induction ks as [|k ks IH]; intros s; simpl.
  - unfold emitted. simpl. done.
  - unfold emitted. simpl. case_decide as Hk.
    + rewrite bool_decide_eq_true_2 by done. simpl. by rewrite app_nil_r.
    + rewrite bool_decide_eq_false_2 by done. simpl.
      destruct (assoc_get k A) as [vs|].
      2:{ destruct (has_empty_key ks); simpl; by rewrite app_nil_r. }
      set (c0 := currentCombination s).
      assert (Hag : forall x, proto_or_outside (k :: ks) x ->
                currentCombination s !! x = c0 !! x) by done.
      assert (Hgoal : combinations
                (fold_left (fun s value => generateCombination A ks (set_current s k value)) vs s)
              = combinations s ++ flat_map (fun v => emitted A ks (js_set_prim c0 k v)) vs).
      { clearbody c0. revert s Hag. induction vs as [|v vs IHvs]; intros s Hag; simpl.
        - by rewrite app_nil_r.
        - rewrite IHvs.
          + rewrite IH. simpl. rewrite <- app_assoc. f_equal. f_equal.
            unfold emitted. destruct (has_empty_key ks); [done|].
            apply map_ext_in. intros p Hp. apply set_path_agree.
            { by apply value_paths_length. }
            intros x Hx. unfold js_set_prim. case_decide as Hp'.
            * apply Hag. destruct Hx as [Hx|Hx]; [|by right].
              destruct (decide (x = k)) as [->|]; [by right|left; set_solver].
            * destruct (decide (x = k)) as [->|Hne].
              { by rewrite !lookup_insert_eq. }
              rewrite !lookup_insert_ne by done. apply Hag.
              destruct Hx as [Hx|Hx]; [left; set_solver|by right].
          + intros x Hx. rewrite generateCombination_current.
            * simpl. rewrite js_set_prim_other. { apply Hag. done. }
              destruct Hx as [Hx|Hx]; [left; set_solver|by right].
            * destruct Hx as [Hx|Hx]; [left; set_solver|by right]. }
      rewrite Hgoal. f_equal.
      destruct (has_empty_key ks) eqn:He.
      * unfold emitted. rewrite He. clear. induction vs; simpl; done.
      * unfold emitted. rewrite He. rewrite map_flat_map.
        apply flat_map_ext. intros v. rewrite map_map. done.
Qed.

End GeneratorProofs.


Lemma assoc_get_NoDup (A : list (string * list string)) k vs :
  NoDup (map fst A) -> In (k, vs) A -> assoc_get k A = Some vs.
Proof.
  induction A as [|[k' vs'] A IH]; intros Hnd Hin; simpl in *; [done|].
  apply NoDup_cons in Hnd as [Hk' Hnd].
  destruct Hin as [Heq|Hin].
  - injection Heq as -> ->. by rewrite decide_True.
  - rewrite decide_False; [by apply IH|]. intros ->. apply Hk'.
    apply list_elem_of_In, in_map_iff. by exists (k', vs).
Qed.

Lemma value_paths_entries (A E : list (string * list string)) :
  (forall k vs, In (k, vs) E -> assoc_get k A = Some vs) ->
  value_paths A (map fst E) = entry_paths E.
Proof.
  induction E as [|[k vs] E IH]; intros HE; simpl; [done|].
  rewrite (HE k vs) by (by left). rewrite IH; [done|].
  intros k' vs' Hin. apply HE. by right.
Qed.

Lemma map_nth_seq_id (l : list string) d :
  map (fun i => nth i l d) (seq 0 (length l)) = l.
Proof.
  induction l as [|x l IH]; simpl; [done|]. f_equal.
  rewrite <- seq_shift, map_map. simpl. done.
Qed.

Lemma flat_map_map' {X Y Z} (g : Y -> list Z) (f : X -> Y) (l : list X) :
  flat_map g (map f l) = flat_map (fun x => g (f x)) l.
Proof. induction l as [|x l IH]; simpl; [done|]. by rewrite IH. Qed.

Lemma entry_paths_index (E : list (string * list string)) :
  entry_paths E = map (decode E) (index_paths E).
Proof.
  induction E as [|[k vs] E IH]; simpl; [done|].
  rewrite map_flat_map. rewrite <- (map_nth_seq_id vs "") at 1.
  rewrite flat_map_map'. apply flat_map_ext. intros i.
  rewrite IH, !map_map. done.
Qed.

Lemma generateVariantCombinations_paths (A : list (string * list string)) :
  NoDup (map fst A) ->
  generateVariantCombinations A =
  if has_empty_key (map fst A) then []
  else map (fun p => set_path (map fst A) p ∅) (entry_paths A).
Proof.
  intros Hnd. unfold generateVariantCombinations.
  rewrite generateCombination_out. simpl. unfold emitted.
  rewrite (value_paths_entries A A); [done|].
  intros k vs Hin. by apply assoc_get_NoDup.
Qed.

(** Exact characterisation: nothing when some key is the empty string,
    otherwise the combinations of all index vectors, in the order of
    [index_paths]. *)
Lemma generateVariantCombinations_index (A : list (string * list string)) :
  NoDup (map fst A) ->
  generateVariantCombinations A =
  if has_empty_key (map fst A) then [] else map (combination_of A) (index_paths A).
Proof.
  intros Hnd. rewrite generateVariantCombinations_paths by done.
  destruct (has_empty_key _); [done|].
  rewrite entry_paths_index, map_map. done.
Qed.

(* ------------------------------------------------------------------ *)
(** ** Lexicographic order of [index_paths] *)

Lemma StronglySorted_app {X} (R : X -> X -> Prop) (l1 l2 : list X) :
  StronglySorted R l1 -> StronglySorted R l2 ->
  (forall x y, In x l1 -> In y l2 -> R x y) ->
  StronglySorted R (l1 ++ l2).
Proof.
  induction 1 as [|x l1 Hs IH Hf]; intros H2 Hxy; simpl; [done|].
  constructor.
  - apply IH; [done|]. intros a b Ha Hb. apply Hxy; [by right|done].
  - apply Forall_app. split; [done|].
    apply Forall_forall. intros y Hy. apply Hxy; [by left|by apply list_elem_of_In].
Qed.

Lemma StronglySorted_map_cons i (I : list (list nat)) :
  StronglySorted lex_lt I -> StronglySorted lex_lt (map (cons i) I).
Proof.
  induction 1 as [|x I Hs IH Hf]; simpl; constructor; [done|].
  apply Forall_map. eapply Forall_impl; [exact Hf|]. intros y Hy. simpl. auto.
Qed.

Lemma index_block_sorted (I : list (list nat)) n start :
  StronglySorted lex_lt I ->
  StronglySorted lex_lt (flat_map (fun i => map (cons i) I) (seq start n)).
Proof.
  intros HI. revert start. induction n as [|n IH]; intros start; simpl; [constructor|].
  apply StronglySorted_app; [by apply StronglySorted_map_cons|apply IH|].
  intros x y Hx Hy.
  apply in_map_iff in Hx as (a & <- & _).
  apply in_flat_map in Hy as (j & Hj & Hy).
  apply in_map_iff in Hy as (b & <- & _).
  apply in_seq in Hj. simpl. left. lia.
Qed.

Lemma index_paths_sorted (A : list (string * list string)) :
  StronglySorted lex_lt (index_paths A).
Proof.
  induction A as [|[k vs] A IH]; simpl.
  - repeat constructor.
  - by apply index_block_sorted.
Qed.

Lemma index_paths_valid (A : list (string * list string)) :
  Forall (valid_index A) (index_paths A).
Proof.
  induction A as [|[k vs] A IH]; simpl.
  - repeat constructor.
  - apply Forall_forall. intros ix Hix. apply list_elem_of_In in Hix.
    apply in_flat_map in Hix as (i & Hi & Hix).
    apply in_map_iff in Hix as (ix' & <- & Hix'). apply in_seq in Hi.
    simpl. split; [lia|]. eapply Forall_forall in IH; [exact IH|].
    by apply list_elem_of_In.
Qed.

(* ------------------------------------------------------------------ *)
(** ** Counting the combinations *)


Lemma js_set_prim_comm c k1 v1 k2 v2 :
  k1 <> k2 -> js_set_prim (js_set_prim c k1 v1) k2 v2 = js_set_prim (js_set_prim c k2 v2) k1 v1.
Proof.
  intros Hne. unfold js_set_prim.
  repeat case_decide; try done. by apply insert_insert_ne.
Qed.

Lemma set_path_js_set ks p c k v :
  k ∉ ks -> set_path ks p (js_set_prim c k v) = js_set_prim (set_path ks p c) k v.
Proof.
  revert p c. induction ks as [|k' ks IH]; intros [|v' p] c Hk; simpl; try done.
  rewrite js_set_prim_comm by set_solver. apply IH. set_solver.
Qed.

Lemma set_path_outside ks p c x :
  proto_or_outside ks x -> set_path ks p c !! x = c !! x.
Proof.
  revert p c. induction ks as [|k ks IH]; intros [|v p] c Hx; simpl; try done.
  rewrite IH.
  - apply js_set_prim_other. destruct Hx as [Hx|Hx]; [left; set_solver|by right].
  - destruct Hx as [Hx|Hx]; [left; set_solver|by right].
Qed.


Lemma combo_cons k vs E v p :
  k ∉ map fst E -> combo ((k, vs) :: E) (v :: p) = js_set_prim (combo E p) k v.
Proof. intros Hk. unfold combo. simpl. by apply set_path_js_set. Qed.

Lemma occurrences_app f L1 L2 :
  occurrences f (L1 ++ L2) = occurrences f L1 + occurrences f L2.
Proof. unfold occurrences. by rewrite filter_app, length_app. Qed.

Lemma occurrences_map_insert f k v (L : list (gmap string string)) :
  (forall c, In c L -> c !! k = None) ->
  occurrences f (map (fun c => <[k:=v]> c) L) =
  if decide (f !! k = Some v) then occurrences (delete k f) L else 0.
Proof.
  induction L as [|c L IH]; intros HL; simpl.
  - by case_decide.
  - assert (Hc : c !! k = None) by (apply HL; by left).
    specialize (IH (fun c' Hc' => HL c' (or_intror Hc'))).
    unfold occurrences in *. simpl. rewrite !filter_cons.
    destruct (decide (<[k:=v]> c = f)) as [H1|H1]; simpl; rewrite IH;
      destruct (decide (f !! k = Some v)) as [Hf|Hf]; simpl; try done;
      destruct (decide (c = delete k f)) as [H2|H2]; simpl; try done.
    all: exfalso; first
      [ subst f; rewrite lookup_insert_eq in Hf; done
      | apply H2; subst f; by rewrite delete_insert_id
      | apply H1; subst c; by apply insert_delete_id ].
Qed.

Lemma occurrences_blocks_insert f k vs (L : list (gmap string string)) :
  (forall c, In c L -> c !! k = None) ->
  occurrences f (flat_map (fun v => map (fun c => <[k:=v]> c) L) vs) =
  match f !! k with Some v => count_value v vs | None => 0 end * occurrences (delete k f) L.
Proof.
  intros HL. induction vs as [|w vs IH]; simpl.
  - unfold occurrences, count_value. destruct (f !! k); simpl; lia.
  - rewrite occurrences_app, IH, occurrences_map_insert by done.
    destruct (f !! k) as [v|] eqn:Hfk; simpl.
    + unfold count_value. rewrite filter_cons.
      destruct (decide (Some v = Some w)); destruct (decide (w = v)); simpl;
        try lia; exfalso; congruence.
    + destruct (decide (None = Some w)); [congruence|]. lia.
Qed.

Lemma occurrences_blocks_const f (vs : list string) (L : list (gmap string string)) :
  occurrences f (flat_map (fun _ => L) vs) = length vs * occurrences f L.
Proof.
  induction vs as [|w vs IH]; simpl; [done|]. rewrite occurrences_app, IH. lia.
Qed.

Lemma multiplicity_delete E f k :
  k ∉ map fst E -> multiplicity E (delete k f) = multiplicity E f.
Proof.
  induction E as [|[k' vs] E IH]; intros Hk; simpl; [done|].
  rewrite IH by set_solver. rewrite lookup_delete_ne by set_solver. done.
Qed.

Lemma occurrences_entry_paths E f :
  NoDup (map fst E) ->
  (forall k v, f !! k = Some v -> In k (map fst E) /\ k <> "__proto__") ->
  occurrences f (map (combo E) (entry_paths E)) = multiplicity E f.
Proof.
  revert f. induction E as [|[k vs] E IH]; intros f Hnd Hf; simpl.
  - assert (f = ∅) as ->.
    { apply map_empty. intros x. destruct (f !! x) eqn:Hx; [|done].
      by destruct (Hf _ _ Hx) as [[] _]. }
    unfold occurrences, combo. simpl. rewrite filter_cons_True by done. done.
  - apply NoDup_cons in Hnd as [Hk Hnd].
    assert (Hk' : k ∉ map fst E) by done.
    rewrite map_flat_map.
    assert (Hblk : forall v, map (combo ((k, vs) :: E)) (map (cons v) (entry_paths E))
                     = map (fun c => js_set_prim c k v) (map (combo E) (entry_paths E))).
    { intros v. rewrite !map_map. apply map_ext. intros p. by apply combo_cons. }
    rewrite (flat_map_ext _ _ Hblk).
    assert (HL : forall c, In c (map (combo E) (entry_paths E)) -> c !! k = None).
    { intros c Hc. apply in_map_iff in Hc as (p & <- & _). unfold combo.
      rewrite set_path_outside; [done|]. by left. }
    case_decide as Hproto.
    + rewrite (flat_map_ext _ (fun _ => map (combo E) (entry_paths E))).
      2:{ intros v. erewrite map_ext; [apply map_id|]. intros c.
          unfold js_set_prim. by rewrite decide_True. }
      rewrite occurrences_blocks_const, IH; [done|done|].
      intros x v Hx. destruct (Hf x v Hx) as [Hin Hnp]. split; [|done].
      simpl in Hin. destruct Hin as [Heq|Hin]; [congruence|done].
    + rewrite (flat_map_ext _ (fun v => map (fun c => <[k:=v]> c)
                                          (map (combo E) (entry_paths E)))).
      2:{ intros v. apply map_ext. intros c.
          unfold js_set_prim. by rewrite decide_False. }
      rewrite occurrences_blocks_insert by done.
      rewrite IH; [by rewrite multiplicity_delete|done|].
      intros x v Hx. apply lookup_delete_Some in Hx as [Hxk Hx].
      destruct (Hf x v Hx) as [Hin Hnp]. split; [|done].
      simpl in Hin. destruct Hin as [Heq|Hin]; [congruence|done].
Qed.

Lemma length_blocks {X} (vs : list string) (P : list X) (g : string -> X -> X) :
  length (flat_map (fun v => map (g v) P) vs) = length vs * length P.
Proof.
  induction vs as [|v vs IH]; simpl; [done|]. rewrite length_app, length_map, IH. lia.
Qed.

Lemma entry_paths_length E : length (entry_paths E) = size_product E.
Proof.
  induction E as [|[k vs] E IH]; simpl; [done|].
  rewrite (length_blocks vs (entry_paths E) cons), IH. done.
Qed.

Lemma combo_total E p :
  NoDup (map fst E) -> In p (entry_paths E) ->
  (forall k vs, In (k, vs) E -> k <> "__proto__" ->
     exists v, combo E p !! k = Some v /\ In v vs) /\
  (forall k v, combo E p !! k = Some v -> In k (map fst E) /\ k <> "__proto__").
Proof.
  revert p. induction E as [|[k vs] E IH]; intros p Hnd Hp; simpl in *.
  - destruct Hp as [<-|[]]. split; [done|]. intros k v. unfold combo. simpl.
    by rewrite lookup_empty.
  - apply NoDup_cons in Hnd as [Hk Hnd].
    assert (Hk' : k ∉ map fst E) by done.
    apply in_flat_map in Hp as (v & Hv & Hp).
    apply in_map_iff in Hp as (p' & <- & Hp').
    destruct (IH p' Hnd Hp') as [Htot Hdom].
    rewrite combo_cons by done. split.
    + intros k0 vs0 [Heq|Hin] Hnp.
      * injection Heq as <- <-. exists v. unfold js_set_prim.
        rewrite decide_False by done. by rewrite lookup_insert_eq.
      * destruct (Htot k0 vs0 Hin Hnp) as (v0 & Hl & Hv0). exists v0. split; [|done].
        rewrite js_set_prim_other; [done|]. left. intros ->. apply Hk'.
        apply list_elem_of_In, in_map_iff. by exists (k, vs0).
    + intros k0 v0 Hl. unfold js_set_prim in Hl. case_decide as Hp.
      * destruct (Hdom k0 v0 Hl). split; [by right|done].
      * destruct (decide (k0 = k)) as [->|Hne]; [split; [by left|done]|].
        rewrite lookup_insert_ne in Hl by done.
        destruct (Hdom k0 v0 Hl). split; [by right|done].
Qed.

Lemma has_empty_key_false ks : ~ In "" ks -> has_empty_key ks = false.
Proof.
  induction ks as [|k ks IH]; intros H; simpl; [done|].
  rewrite bool_decide_eq_false_2; [|intros ->; apply H; by left].
  simpl. apply IH. intros Hin. apply H. by right.
Qed.

Lemma count_value_absent v vs : ~ In v vs -> count_value v vs = 0.
Proof.
  induction vs as [|w vs IH]; intros Hin; [done|]. unfold count_value in *.
  rewrite filter_cons. destruct (decide (w = v)) as [->|Hne].
  - exfalso. apply Hin. by left.
  - apply IH. intros H. apply Hin. by right.
Qed.

Lemma count_value_NoDup v vs : NoDup vs -> In v vs -> count_value v vs = 1.
Proof.
  induction vs as [|w vs IH]; intros Hnd Hin; simpl in *; [done|].
  apply NoDup_cons in Hnd as [Hw Hnd].
  destruct (decide (w = v)) as [->|Hne].
  - unfold count_value. rewrite filter_cons_True by done. simpl.
    f_equal. apply (count_value_absent v vs).
    intros H. apply Hw. by apply list_elem_of_In.
  - unfold count_value. rewrite filter_cons_False by done.
    apply IH; [done|]. destruct Hin as [->|Hin]; [done|done].
Qed.

Lemma multiplicity_one E f :
  Forall (fun e => NoDup (snd e)) E ->
  (forall k vs, In (k, vs) E -> k <> "__proto__" /\ exists v, f !! k = Some v /\ In v vs) ->
  multiplicity E f = 1.
Proof.
  induction E as [|[k vs] E IH]; intros Hnd Hf; simpl; [done|].
  apply Forall_cons in Hnd as [Hvs Hnd].
  destruct (Hf k vs (or_introl eq_refl)) as [Hnp (v & Hfv & Hv)].
  rewrite decide_False by done. rewrite Hfv, count_value_NoDup by done.
  rewrite IH; [done|done|]. intros k' vs' Hin. apply Hf. by right.
Qed.


(** C1. For every mapping whose keys (in [Object.keys] order) are
    distinct, [generateVariantCombinations] emits the combinations in
    strictly increasing lexicographic order of their index vectors: the
    first key varies slowest, the last key fastest, and each key takes its
    values in the supplied order. For [{color: [red, blue], size: [S, M, L]}]
    the output is (red,S), (red,M), (red,L), (blue,S), (blue,M), (blue,L). *)
Theorem generateVariantCombinations_lexicographic (A : list (string * list string)) :
  NoDup (map fst A) ->
  (exists ixs, StronglySorted lex_lt ixs /\ Forall (valid_index A) ixs /\
     generateVariantCombinations A = map (combination_of A) ixs) /\
  generateVariantCombinations color_size =
  [ <["size":="S"]> {["color":="red"]}; <["size":="M"]> {["color":="red"]};
    <["size":="L"]> {["color":="red"]}; <["size":="S"]> {["color":="blue"]};
    <["size":="M"]> {["color":="blue"]}; <["size":="L"]> {["color":="blue"]} ].
Proof.
  intros Hnd. split; [|vm_compute; reflexivity].
  rewrite generateVariantCombinations_index by done.
  destruct (has_empty_key (map fst A)).
  - exists []. repeat constructor.
  - exists (index_paths A). split; [apply index_paths_sorted|].
    split; [apply index_paths_valid|done].
Qed.

Lemma generateVariantCombinations_lexicographic_witness :
  NoDup (map fst color_size) /\
  exists ixs, StronglySorted lex_lt ixs /\ Forall (valid_index color_size) ixs /\
    generateVariantCombinations color_size = map (combination_of color_size) ixs.
Proof.
  assert (H : NoDup (map fst color_size)) by (apply (bool_decide_unpack _); vm_compute; reflexivity).
  split; [exact H|]. exact (proj1 (generateVariantCombinations_lexicographic color_size H)).
Defined.

(** C2 (amended). For every mapping with distinct keys, none of them the
    empty string: the number of combinations is the product of the sizes
    of the value sequences; each combination assigns one supplied value
    to every key except ["__proto__"] and has no other keys; every such
    assignment occurs as often as the product, over the keys, of the
    number of times its value occurs in the key's sequence (exactly once
    when the sequences have no repeated value and no key is
    ["__proto__"]); a key with an empty sequence gives no combination, and
    the empty mapping gives exactly the empty assignment. *)
Theorem generateVariantCombinations_count (A : list (string * list string)) :
  NoDup (map fst A) -> ~ In "" (map fst A) ->
  length (generateVariantCombinations A) = size_product A /\
  (forall c, In c (generateVariantCombinations A) ->
     (forall k vs, In (k, vs) A -> k <> "__proto__" ->
        exists v, c !! k = Some v /\ In v vs) /\
     (forall k v, c !! k = Some v -> In k (map fst A) /\ k <> "__proto__")) /\
  (forall f, (forall k v, f !! k = Some v -> In k (map fst A) /\ k <> "__proto__") ->
     occurrences f (generateVariantCombinations A) = multiplicity A f) /\
  (forall f, Forall (fun e => NoDup (snd e)) A ->
     (forall k vs, In (k, vs) A -> k <> "__proto__" /\ exists v, f !! k = Some v /\ In v vs) ->
     (forall k v, f !! k = Some v -> In k (map fst A)) ->
     occurrences f (generateVariantCombinations A) = 1) /\
  ((exists k, In (k, []) A) -> generateVariantCombinations A = []) /\
  generateVariantCombinations [] = [∅].
Proof.
  intros Hnd He.
  pose proof (generateVariantCombinations_paths A Hnd) as Hg.
  rewrite has_empty_key_false in Hg by done.
  assert (Hocc : forall f, (forall k v, f !! k = Some v -> In k (map fst A) /\ k <> "__proto__") ->
     occurrences f (generateVariantCombinations A) = multiplicity A f).
  { intros f Hf. rewrite Hg. by apply occurrences_entry_paths. }
  split; [rewrite Hg, length_map; apply entry_paths_length|].
  split.
  { intros c Hc. rewrite Hg in Hc. apply in_map_iff in Hc as (p & <- & Hp).
    by apply combo_total. }
  split; [exact Hocc|].
  split.
  { intros f Hvs Htot Hdom. rewrite Hocc.
    - by apply multiplicity_one.
    - intros k v Hk. split; [by eapply Hdom|]. intros ->.
      pose proof (Hdom _ _ Hk) as Hm.
      apply in_map_iff in Hm as ([k' vs] & Hk' & Hin). simpl in Hk'. subst k'.
      by destruct (Htot _ _ Hin). }
  split; [|reflexivity].
  intros (k & Hin). apply (f_equal length) in Hg.
  rewrite length_map, entry_paths_length in Hg.
  apply length_zero_iff_nil. rewrite Hg. clear -Hin.
  induction A as [|[k' vs] A IH]; simpl in *; [done|].
  destruct Hin as [Heq|Hin]; [injection Heq as -> ->; done|]. rewrite IH by done. lia.
Qed.

Lemma generateVariantCombinations_count_witness :
  NoDup (map fst color_size) /\ ~ In "" (map fst color_size) /\
  length (generateVariantCombinations color_size) = size_product color_size.
Proof.
  assert (H1 : NoDup (map fst color_size)) by (apply (bool_decide_unpack _); vm_compute; reflexivity).
  assert (H2 : ~ In "" (map fst color_size)) by (simpl; intuition discriminate).
  split; [exact H1|split; [exact H2|]].
  exact (proj1 (generateVariantCombinations_count color_size H1 H2)).
Defined.

(** Counterexample to C2: with a repeated value the same assignment is
    emitted twice, and a ["__proto__"] key gets no entry in the
    combinations. *)
Lemma generateVariantCombinations_duplicate_values :
  occurrences {["a" := "x"]} (generateVariantCombinations [("a", ["x"; "x"])]) = 2 /\
  generateVariantCombinations [("__proto__", ["x"; "y"])] = [∅; ∅].
Proof. split; vm_compute; reflexivity. Qed.

(** ** The server actions *)

Ltac run_action :=
  unfold createProductAttribute, updateProductAttribute, deleteProductAttribute,
    update_key_check, catch_envelope, try_catch, bindM, fail_with, throwM, retM; simpl.

Lemma unauthorized_not_owner u o :
  not_owner u (Some o) -> unauthorized u o = true.
Proof.
  unfold not_owner, unauthorized. destruct u as [x|]; [|done].
  intros [H|H]; [done|]. apply bool_decide_true. congruence.
Qed.

Lemma find_filter_singleton {A} (f : A -> bool) l x :
  List.filter f l = [x] -> List.find f l = Some x.
Proof.
  induction l as [|y l IH]; simpl; [done|].
  destruct (f y) eqn:E; [intros [= -> _]; done|]. auto.
Qed.

Lemma product_owner_exists db pid o :
  product_owner db pid = Some o -> is_Some (find_product db pid).
Proof.
  unfold product_owner, find_product.
  destruct (List.filter _ (db_products db)) as [|p [|p' l]] eqn:E; simpl; try done.
  intros _. rewrite (find_filter_singleton _ _ _ E). eauto.
Qed.

Lemma single_data {A} (l : list A) :
  resp_data (single l) = match l with [x] => Some x | _ => None end.
Proof. by destruct l as [|? [|? ?]]. Qed.

Lemma schema_owner_row db i k pid o :
  schema_owner db i = Some (k, pid, o) ->
  exists x, schemas_with_id db i = [x] /\ attribute_key (attr x) = k /\ product_id (attr x) = pid.
Proof.
  unfold schema_owner.
  destruct (schemas_with_id db i) as [|x [|y l]]; simpl; try done.
  unfold schema_embed, find_product; simpl.
  destruct (List.find _ (db_products db)) as [p|] eqn:E; simpl; [|done].
  intros H. repeat case_match; simplify_eq/=.
  exists x. split; [done|split; [done|]].
  apply find_some in E as [_ E]. apply bool_decide_eq_true in E. simpl. done.
Qed.

Lemma filter_update_rows i u l :
  List.filter (fun s => bool_decide (attr_id s = i)) (update_rows i u l)
  = map (updated_row u) (List.filter (fun s => bool_decide (attr_id s = i)) l).
Proof.
  induction l as [|s l IH]; simpl; [done|].
  destruct (decide (attr_id s = i)) as [E|E].
  - simpl. rewrite !bool_decide_true by done. simpl. by rewrite IH.
  - rewrite !bool_decide_false by done. done.
Qed.

Lemma elem_b_In k l : In k l -> elem_b k l = true.
Proof. intros H. apply existsb_exists. exists k. split; [done|]. by apply bool_decide_true. Qed.

(** C3 (the uniqueness check on create). For an authorized caller, when
    exactly one schema of the product already has the key, the creation
    fails with 'Attribute key already exists for this product' and the
    store is unchanged; when none has it (for instance under another
    product) the row is inserted with the defaults; and when two or more
    already have it, [.single()] returns no row and the row is inserted
    as well. Such a state is reached from a store without duplicates:
    renaming a key through [updateProductAttribute] without a
    [product_id], then creating the same key again, leaves three schemas
    of product 1 with the key "color". *)
Theorem createProductAttribute_key_check :
  (forall d db u,
   db_session_user db = Some u -> product_owner db (c_product_id d) = Some u ->
   (length (List.filter (key_matches (c_product_id d) (c_attribute_key d) None) (db_schemas db)) = 1 ->
    createProductAttribute table_client d db =
    (Ok (Failure "Attribute key already exists for this product"), db)) /\
   (length (List.filter (key_matches (c_product_id d) (c_attribute_key d) None) (db_schemas db)) <> 1 ->
    fst (createProductAttribute table_client d db) =
    Ok (Success (Some {| attr_id := db_next_id db; attr := insert_fields d;
                         created_at := db_now db |})))) /\
  let db := sample_store [schema_row 100 1 "color" (Some [opt "red"]) 0 1;
                          schema_row 101 1 "size" (Some [opt "S"]) 1 2] [] (Some "u1") in
  let run := then_run (updateProductAttribute table_client (key_update 101 "color"))
                      (createProductAttribute table_client (create_data 1 "color")) db in
  match fst run with Ok (Success _, Success _) => True | _ => False end /\
  length (List.filter (key_matches 1 "color" None) (db_schemas (snd run))) = 3.
Proof.
  split; [|vm_compute; split; [exact I|reflexivity]].
  intros d db u Hu Ho. pose proof (product_owner_exists _ _ _ Ho) as [p Hp].
  unfold product_owner in Ho. run_action. rewrite Ho, Hu.
  unfold unauthorized. rewrite bool_decide_false by congruence. simpl.
  rewrite single_data.
  destruct (List.filter _ (db_schemas db)) as [|x [|y l]] eqn:E; simpl;
    split; intros H; try done; unfold db_insert; cbn [insert_fields product_id];
    rewrite Hp; done.
Qed.

Lemma createProductAttribute_key_check_witness :
  db_session_user (sample_store [] [] (Some "u1")) = Some "u1" /\
  product_owner (sample_store [] [] (Some "u1")) 2 = Some "u1" /\
  fst (createProductAttribute table_client (create_data 2 "color") (sample_store [] [] (Some "u1")))
  = Ok (Success (Some {| attr_id := 200; attr := insert_fields (create_data 2 "color");
                         created_at := 1000 |})).
Proof.
  split; [reflexivity|split; [reflexivity|]].
  exact (proj2 (proj1 createProductAttribute_key_check (create_data 2 "color")
                  (sample_store [] [] (Some "u1")) "u1" eq_refl eq_refl)
               ltac:(vm_compute; discriminate)).
Defined.

(** C4 (the uniqueness re-check on update). Let an authorized caller
    change the key of schema [upd_id d] (stored key [sk], product [pid])
    to a non-empty [k <> sk]. When the update data carries a [product_id]
    [p] and exactly one other schema of [p] has [k], the update fails with
    'Attribute key already exists for this product'. When it carries no
    [product_id], the check queries [product_id = undefined], which the
    store rejects, so no collision is ever found: the row is updated and
    now has key [k] in product [pid], whatever the other schemas of [pid]
    hold. On a store where schema 100 of product 1 has "color", renaming
    schema 101 of product 1 to "color" succeeds and leaves two schemas of
    product 1 with the key "color". *)
Theorem updateProductAttribute_key_check :
  (forall d db k sk pid u,
   db_session_user db = Some u -> schema_owner db (upd_id d) = Some (sk, pid, u) ->
   u_attribute_key (upd d) = Some k -> k <> "" -> k <> sk ->
   (forall p, u_product_id (upd d) = Some p ->
      length (List.filter (key_matches p k (Some (upd_id d))) (db_schemas db)) = 1 ->
      updateProductAttribute table_client d db =
      (Ok (Failure "Attribute key already exists for this product"), db)) /\
   (u_product_id (upd d) = None ->
      exists s', updateProductAttribute table_client d db =
        (Ok (Success (Some s')), with_schemas db (update_rows (upd_id d) (upd d) (db_schemas db)))
      /\ attribute_key (attr s') = k /\ product_id (attr s') = pid)) /\
  let db := sample_store [schema_row 100 1 "color" (Some [opt "red"]) 0 1;
                          schema_row 101 1 "size" (Some [opt "S"]) 1 2] [] (Some "u1") in
  match fst (updateProductAttribute table_client (key_update 101 "color") db) with
  | Ok (Success _) => True | _ => False end /\
  length (List.filter (key_matches 1 "color" None)
            (db_schemas (snd (updateProductAttribute table_client (key_update 101 "color") db)))) = 2.
Proof.
  split; [|vm_compute; split; [exact I|reflexivity]].
  intros d db k sk pid u Hu Ho Hk Hne Hsk.
  pose proof (schema_owner_row _ _ _ _ _ Ho) as (x & Hx & Hxk & Hxp).
  unfold schema_owner in Ho. run_action. rewrite Ho, Hu.
  unfold unauthorized. rewrite bool_decide_false by congruence. simpl.
  rewrite Hk. rewrite decide_True by tauto.
  split.
  - intros p Hp Hlen. rewrite Hp. simpl. rewrite single_data.
    destruct (List.filter _ (db_schemas db)) as [|a [|b l]]; done.
  - intros Hp. rewrite Hp. simpl.
    unfold schemas_with_id in *. simpl. rewrite filter_update_rows, Hx. simpl.
    eexists. split; [reflexivity|]. simpl. unfold apply_update; simpl.
    rewrite Hk, Hp. simpl. done.
Qed.

Lemma updateProductAttribute_key_check_witness :
  exists s', updateProductAttribute table_client (key_update 101 "color")
      (sample_store [schema_row 100 1 "color" (Some [opt "red"]) 0 1;
                     schema_row 101 1 "size" (Some [opt "S"]) 1 2] [] (Some "u1")) =
    (Ok (Success (Some s')),
     with_schemas (sample_store [schema_row 100 1 "color" (Some [opt "red"]) 0 1;
                                 schema_row 101 1 "size" (Some [opt "S"]) 1 2] [] (Some "u1"))
       (update_rows 101 (upd (key_update 101 "color"))
          [schema_row 100 1 "color" (Some [opt "red"]) 0 1;
           schema_row 101 1 "size" (Some [opt "S"]) 1 2]))
    /\ attribute_key (attr s') = "color" /\ product_id (attr s') = 1%Z.
Proof.
  exact (proj2 (proj1 updateProductAttribute_key_check (key_update 101 "color")
    (sample_store [schema_row 100 1 "color" (Some [opt "red"]) 0 1;
                   schema_row 101 1 "size" (Some [opt "S"]) 1 2] [] (Some "u1"))
    "color" "size" 1%Z "u1" eq_refl ltac:(vm_compute; reflexivity) eq_refl
    ltac:(discriminate) ltac:(discriminate)) eq_refl).
Defined.

(** C5 (the in-use guard of delete). Let an authorized caller delete
    schema [i] with key [k] of product [pid]. If a variant of [pid] has an
    attribute object that has [k] as an own key, or if [k] is a property
    of [Object.prototype] such as "constructor" and some variant of [pid]
    has an attribute object at all, the deletion fails with 'Cannot delete
    attribute that is used by variants' and the store is unchanged. Only
    when the [in] test is false for every variant of [pid] is the schema
    deleted. So a schema with key "constructor" cannot be deleted while
    product 1 has a variant with attributes [{size: "M"}], although no
    variant has that key. *)
Theorem deleteProductAttribute_in_use :
  (forall i db k pid u,
   db_session_user db = Some u -> schema_owner db i = Some (k, pid, u) ->
   ((exists v l, In v (List.filter (fun v => bool_decide (variant_product_id v = pid)) (db_variants db))
                 /\ attributes v = JObj l /\ (In k (map fst l) \/ In k object_prototype_keys)) ->
    deleteProductAttribute table_client i db =
    (Ok (Failure "Cannot delete attribute that is used by variants"), db)) /\
   ((forall v, In v (List.filter (fun v => bool_decide (variant_product_id v = pid)) (db_variants db))
               -> variant_has_key k v = false) ->
    deleteProductAttribute table_client i db =
    (Ok (Success None),
     with_schemas db (List.filter (fun s => negb (bool_decide (attr_id s = i))) (db_schemas db))))) /\
  deleteProductAttribute table_client 100
    (sample_store [schema_row 100 1 "constructor" (Some [opt "red"]) 0 1]
                  [variant 7 1 [("size", "M")]] (Some "u1"))
  = (Ok (Failure "Cannot delete attribute that is used by variants"),
     sample_store [schema_row 100 1 "constructor" (Some [opt "red"]) 0 1]
                  [variant 7 1 [("size", "M")]] (Some "u1")).
Proof.
  split; [|vm_compute; reflexivity].
  intros i db k pid u Hu Ho.
  unfold schema_owner in Ho.
  split.
  - intros (v & l & Hin & Ha & Hk).
    assert (Huse : existsb (variant_has_key k)
      (List.filter (fun v => bool_decide (variant_product_id v = pid)) (db_variants db)) = true).
    { apply existsb_exists. exists v. split; [done|].
      unfold variant_has_key. rewrite Ha.
      cbn [js_truthy js_typeof_object js_is_null negb andb js_in].
      destruct Hk as [Hk|Hk].
      - by rewrite (elem_b_In k (map fst l)).
      - rewrite (elem_b_In k object_prototype_keys) by done. apply orb_true_r. }
    run_action. rewrite Ho, Hu.
    unfold unauthorized. rewrite bool_decide_false by congruence. simpl.
    rewrite Huse. done.
  - intros Hnone.
    assert (Huse : existsb (variant_has_key k)
      (List.filter (fun v => bool_decide (variant_product_id v = pid)) (db_variants db)) = false).
    { apply not_true_iff_false. intros Hex.
      apply existsb_exists in Hex as (v & Hin & Hv). rewrite Hnone in Hv; done. }
    run_action. rewrite Ho, Hu.
    unfold unauthorized. rewrite bool_decide_false by congruence. simpl.
    rewrite Huse. done.
Qed.

Lemma deleteProductAttribute_in_use_witness :
  deleteProductAttribute table_client 100
    (sample_store [schema_row 100 1 "color" (Some [opt "red"]) 0 1]
                  [variant 7 1 [("color", "red")]] (Some "u1"))
  = (Ok (Failure "Cannot delete attribute that is used by variants"),
     sample_store [schema_row 100 1 "color" (Some [opt "red"]) 0 1]
                  [variant 7 1 [("color", "red")]] (Some "u1")).
Proof.
  apply (proj1 (proj1 deleteProductAttribute_in_use 100%Z
    (sample_store [schema_row 100 1 "color" (Some [opt "red"]) 0 1]
                  [variant 7 1 [("color", "red")]] (Some "u1"))
    "color" 1%Z "u1" eq_refl ltac:(vm_compute; reflexivity))).
  exists (variant 7 1 [("color", "red")]), [("color", JStr "red")].
  split; [simpl; left; reflexivity|split; [reflexivity|left; simpl; left; reflexivity]].
Defined.

(** ** Options *)








(** ** Access control *)

(** C7 (amended). For create, update and delete, a caller who has no
    identity or is not the [user_id] of the brand owning the target gets a
    failure envelope and the store is left unchanged. The message is
    'Unauthorized' when the target exists with an owner, and 'Product not
    found or access denied' (create) or 'Attribute not found or access
    denied' (update, delete) when the target or its ownership chain is
    missing; the two outcomes differ, so the error tells whether the
    record exists. *)
Theorem mutations_deny_non_owner :
  (forall d db, not_owner (db_session_user db) (product_owner db (c_product_id d)) ->
     createProductAttribute table_client d db =
     (Ok (Failure (denied_message (product_owner db (c_product_id d))
                     "Product not found or access denied")), db)) /\
  (forall d db, not_owner (db_session_user db) (schema_owner_id db (upd_id d)) ->
     updateProductAttribute table_client d db =
     (Ok (Failure (denied_message (schema_owner_id db (upd_id d))
                     "Attribute not found or access denied")), db)) /\
  (forall i db, not_owner (db_session_user db) (schema_owner_id db i) ->
     deleteProductAttribute table_client i db =
     (Ok (Failure (denied_message (schema_owner_id db i)
                     "Attribute not found or access denied")), db)).
Proof.
  split; [|split].
  - intros d db. unfold product_owner, denied_message. run_action.
    destruct (owner_of_product _) as [o|]; [|done].
    intros H. by rewrite unauthorized_not_owner.
  - intros d db. unfold schema_owner_id, schema_owner, denied_message. run_action.
    destruct (owner_of_schema _) as [[[k pid] o]|]; [|done].
    intros H. simpl in H. by rewrite unauthorized_not_owner.
  - intros i db. unfold schema_owner_id, schema_owner, denied_message. run_action.
    destruct (owner_of_schema _) as [[[k pid] o]|]; [|done].
    intros H. simpl in H. by rewrite unauthorized_not_owner.
Qed.

Lemma mutations_deny_non_owner_witness :
  let db := sample_store [schema_row 100 1 "color" (Some [opt "red"]) 0 1] [] (Some "u2") in
  createProductAttribute table_client (create_data 1 "size") db = (Ok (Failure "Unauthorized"), db) /\
  updateProductAttribute table_client (key_update 100 "size") db = (Ok (Failure "Unauthorized"), db) /\
  deleteProductAttribute table_client 999 db =
    (Ok (Failure "Attribute not found or access denied"), db).
Proof.
  split; [|split].
  - apply (proj1 mutations_deny_non_owner). right. vm_compute. intros H; discriminate H.
  - apply (proj1 (proj2 mutations_deny_non_owner)). right. vm_compute. intros H; discriminate H.
  - apply (proj2 (proj2 mutations_deny_non_owner)). right. vm_compute. intros H; discriminate H.
Defined.

(** Counterexample to C7: for the same caller, who does not own brand 5,
    deleting the existing schema 100 answers 'Unauthorized' while deleting
    the missing schema 999 answers 'Attribute not found or access denied'.
    (Reordering, adding and removing options check no ownership at all.) *)
Lemma deleteProductAttribute_reveals_existence :
  let db := sample_store [schema_row 100 1 "color" (Some [opt "red"]) 0 1] [] (Some "u2") in
  deleteProductAttribute table_client 100 db = (Ok (Failure "Unauthorized"), db) /\
  deleteProductAttribute table_client 999 db =
    (Ok (Failure "Attribute not found or access denied"), db).
Proof. split; vm_compute; reflexivity. Qed.

(** ** Reads *)

Lemma getProductAttributes_table pid db :
  getProductAttributes table_client pid db =
  (Ok (merge_sort schema_le (schemas_of_product db pid)), db).
Proof. reflexivity. Qed.

Lemma try_catch_ok {S A} (body : M S A) h s :
  exists a s', try_catch body h s = (Ok a, s').
Proof. unfold try_catch. destruct (body s) as [[a|e] s']; eauto. Qed.

Lemma after_createClient {S A} (C : SupabaseClient S) (k : unit -> M S A) s s1 :
  createClient C s = (Ok tt, s1) -> bindM (createClient C) k s = k tt s1.
Proof. intros H. unfold bindM. by rewrite H. Qed.

(** C8. On the store, [getProductAttributes pid] returns exactly the
    schemas of product [pid] (a permutation of them), sorted by
    [sort_order] ascending and, for equal [sort_order], by [created_at]
    ascending, and the empty list when the product has none. For any
    client whose [createClient()] succeeds, when the query rejects or
    answers with an error, the action returns the empty list and does
    not throw. *)
Theorem getProductAttributes_sorted :
  (forall pid db, exists l,
     getProductAttributes table_client pid db = (Ok l, db) /\
     StronglySorted schema_le l /\ l ≡ₚ schemas_of_product db pid /\
     (schemas_of_product db pid = [] -> l = [])) /\
  (forall (S : Type) (C : SupabaseClient S) pid s s1 s2,
     createClient C s = (Ok tt, s1) ->
     ((exists e, select_schemas_ordered C pid s1 = (Throw e, s2)) \/
      (exists r, select_schemas_ordered C pid s1 = (Ok r, s2) /\ is_Some (resp_error r))) ->
     getProductAttributes C pid s = (Ok [], s2)).
Proof.
  split.
  - intros pid db. eexists. split; [apply getProductAttributes_table|].
    split; [apply StronglySorted_merge_sort; apply _|].
    split; [apply merge_sort_Permutation|].
    intros ->. reflexivity.
  - intros S C pid s s1 s2 Hc Hsel.
    unfold getProductAttributes, try_catch, bindM, fail_with, throwM, retM.
    rewrite Hc.
    destruct Hsel as [(e & He)|(r & Hr & [m Hm])].
    + by rewrite He.
    + rewrite Hr, Hm. done.
Qed.

Lemma getProductAttributes_sorted_witness :
  createClient offline_client (sample_store [] [] None) = (Ok tt, sample_store [] [] None) /\
  getProductAttributes offline_client 1 (sample_store [] [] None) = (Ok [], sample_store [] [] None).
Proof.
  split; [reflexivity|].
  apply (proj2 getProductAttributes_sorted DB offline_client 1%Z _ (sample_store [] [] None));
    [reflexivity|].
  left. eexists. reflexivity.
Defined.

(** C9 (amended). For every client and state in which [createClient()]
    succeeds, every action returns a value and never throws: the
    mutating actions return a [Success] or [Failure] envelope (for
    [updateAttributeOrder], whatever the order in which the store answers
    its requests), [getProductAttributes] a list, [getProductAttributeById]
    a row or [None], [getAttributeCombinations] a mapping.
    [getProductAttributes] returns the empty list, and
    [getProductAttributeById] returns [None], when its query rejects or
    answers with an error; [getAttributeCombinations] returns the empty
    mapping when its inner [getProductAttributes] throws. [createClient()]
    itself runs before the [try]: when it throws, every action throws the
    same error, with the state [createClient()] left. *)
Theorem actions_catch_after_createClient :
  (forall (S : Type) (C : SupabaseClient S) s s1,
   createClient C s = (Ok tt, s1) ->
   (forall d, exists r s', createProductAttribute C d s = (Ok r, s')) /\
   (forall d, exists r s', updateProductAttribute C d s = (Ok r, s')) /\
   (forall i, exists r s', deleteProductAttribute C i s = (Ok r, s')) /\
   (forall os arrival, exists r s', updateAttributeOrder C os arrival s = (Ok r, s')) /\
   (forall i o, exists r s', addAttributeOption C i o s = (Ok r, s')) /\
   (forall i v, exists r s', removeAttributeOption C i v s = (Ok r, s')) /\
   (forall pid, exists r s', getProductAttributes C pid s = (Ok r, s')) /\
   (forall i, exists r s', getProductAttributeById C i s = (Ok r, s')) /\
   (forall pid, exists r s', getAttributeCombinations C pid s = (Ok r, s')) /\
   (forall pid s2,
      ((exists e, select_schemas_ordered C pid s1 = (Throw e, s2)) \/
       (exists r, select_schemas_ordered C pid s1 = (Ok r, s2) /\ is_Some (resp_error r))) ->
      getProductAttributes C pid s = (Ok [], s2)) /\
   (forall i s2,
      ((exists e, select_schema_by_id C i s1 = (Throw e, s2)) \/
       (exists r, select_schema_by_id C i s1 = (Ok r, s2) /\ is_Some (resp_error r))) ->
      getProductAttributeById C i s = (Ok None, s2)) /\
   (forall pid e s2, createClient C s1 = (Throw e, s2) ->
      getAttributeCombinations C pid s = (Ok [], s2))) /\
  (forall (S : Type) (C : SupabaseClient S) s e s1,
   createClient C s = (Throw e, s1) ->
   (forall d, createProductAttribute C d s = (Throw e, s1)) /\
   (forall d, updateProductAttribute C d s = (Throw e, s1)) /\
   (forall i, deleteProductAttribute C i s = (Throw e, s1)) /\
   (forall os arrival, updateAttributeOrder C os arrival s = (Throw e, s1)) /\
   (forall i o, addAttributeOption C i o s = (Throw e, s1)) /\
   (forall i v, removeAttributeOption C i v s = (Throw e, s1)) /\
   (forall pid, getProductAttributes C pid s = (Throw e, s1)) /\
   (forall i, getProductAttributeById C i s = (Throw e, s1)) /\
   (forall pid, getAttributeCombinations C pid s = (Throw e, s1)) /\
   (forall R pid, getProductAttributeSchema C R pid s = (Throw e, s1)) /\
   (forall R pid vs, validateAttributeValues C R pid vs s = (Throw e, s1))).
Proof.
  split.
  - intros S C s s1 Hc.
    repeat split; intros;
      try (unfold createProductAttribute, updateProductAttribute, deleteProductAttribute,
             updateAttributeOrder, addAttributeOption, removeAttributeOption,
             getProductAttributes, getProductAttributeById, getAttributeCombinations,
             catch_envelope;
           rewrite (after_createClient C _ s s1 Hc); apply try_catch_ok).
    + unfold getProductAttributes, try_catch, bindM, retM.
      rewrite Hc. match goal with H : _ \/ _ |- _ => destruct H as [(e & He)|(r & Hr & [m Hm])] end.
      * by rewrite He.
      * rewrite Hr, Hm. reflexivity.
    + unfold getProductAttributeById, try_catch, bindM, retM.
      rewrite Hc. match goal with H : _ \/ _ |- _ => destruct H as [(e & He)|(r & Hr & [m Hm])] end.
      * by rewrite He.
      * by rewrite Hr, Hm.
    + unfold getAttributeCombinations, getProductAttributes, try_catch, bindM.
      rewrite Hc. match goal with H : createClient C s1 = _ |- _ => rewrite H end. done.
  - intros S C s e s1 Hc.
    repeat split; intros;
      unfold createProductAttribute, updateProductAttribute, deleteProductAttribute,
        updateAttributeOrder, addAttributeOption, removeAttributeOption,
        getProductAttributes, getProductAttributeById, getAttributeCombinations,
        getProductAttributeSchema, validateAttributeValues, bindM;
      by rewrite Hc.
Qed.

Lemma actions_catch_after_createClient_witness :
  (createClient offline_client (sample_store [] [] None) = (Ok tt, sample_store [] [] None) /\
   getProductAttributeById offline_client 100 (sample_store [] [] None)
   = (Ok None, sample_store [] [] None)) /\
  (createClient failing_client (sample_store [] [] None)
   = (Throw (ErrorObj "cookies was called outside a request scope"), sample_store [] [] None) /\
   getProductAttributes failing_client 1 (sample_store [] [] None)
   = (Throw (ErrorObj "cookies was called outside a request scope"), sample_store [] [] None)).
Proof.
  split.
  - split; [reflexivity|].
    apply (proj1 actions_catch_after_createClient DB offline_client _ (sample_store [] [] None)
             eq_refl).
    left. eexists. reflexivity.
  - split; [reflexivity|].
    apply (proj2 actions_catch_after_createClient DB failing_client (sample_store [] [] None)
             _ (sample_store [] [] None) eq_refl).
Defined.

(** Counterexample to C9: when [createClient()] rejects, the action
    rejects with the same error instead of returning an envelope. *)
Lemma createClient_failure_escapes :
  createProductAttribute failing_client (create_data 1 "color") (sample_store [] [] (Some "u1"))
  = (Throw (ErrorObj "cookies was called outside a request scope"), sample_store [] [] (Some "u1")).
Proof. reflexivity. Qed.

Lemma key_before_trans a b c : key_before a b -> key_before b c -> key_before a c.
Proof.
  unfold key_before.
  destruct (array_index a), (array_index b), (array_index c); simpl; try done; lia.
Qed.

Lemma insert_index_perm {V} n k (v : V) o :
  insert_index n k v o ≡ₚ (k, v) :: o.
Proof.
  induction o as [|[k' v'] o IH]; simpl; [done|].
  destruct (array_index k') as [n'|]; [|done].
  destruct (n' <? n)%N; [|done].
  rewrite IH. apply perm_swap.
Qed.

Lemma add_own_key_perm {V} (o : list (string * V)) k v :
  add_own_key o k v ≡ₚ o ++ [(k, v)].
Proof.
  unfold add_own_key. destruct (array_index k) as [n|]; [|done].
  rewrite insert_index_perm. apply Permutation_cons_append.
Qed.

Lemma insert_index_Forall {V} (P : string -> Prop) n k (v : V) o :
  P k -> Forall P (map fst o) -> Forall P (map fst (insert_index n k v o)).
Proof.
  intros Hk. induction o as [|[k' v'] o IH]; simpl; intros Ho; [by constructor|].
  inversion Ho as [|? ? Hk' Ho']; subst.
  destruct (array_index k') as [n'|]; [destruct (n' <? n)%N|]; simpl;
    repeat constructor; auto.
Qed.

Lemma insert_index_sorted {V} n k (v : V) o :
  array_index k = Some n ->
  StronglySorted key_before (map fst o) ->
  StronglySorted key_before (map fst (insert_index n k v o)).
Proof.
  intros Ek. induction o as [|[k' v'] o IH]; simpl; intros Hs; [by repeat constructor|].
  inversion Hs as [|? ? Hs' Hf]; subst.
  assert (Hrest : key_before k k' -> Forall (key_before k) (map fst o)).
  { intros Hkk. apply Forall_forall. intros x Hx.
    apply (key_before_trans _ k'); [done|]. by apply Forall_forall with (x:=x) in Hf. }
  destruct (array_index k') as [n'|] eqn:Ek'.
  - destruct (N.ltb_spec n' n) as [Hlt|Hge].
    + simpl. constructor; [by apply IH|].
      apply insert_index_Forall; [|done]. unfold key_before. rewrite Ek', Ek. lia.
    + simpl. constructor; [done|]. constructor.
      * unfold key_before. rewrite Ek, Ek'. lia.
      * apply Hrest. unfold key_before. rewrite Ek, Ek'. lia.
  - simpl. constructor; [done|]. constructor.
    + unfold key_before. by rewrite Ek, Ek'.
    + apply Hrest. unfold key_before. by rewrite Ek, Ek'.
Qed.

Lemma add_own_key_sorted {V} (o : list (string * V)) k v :
  StronglySorted key_before (map fst o) -> StronglySorted key_before (map fst (add_own_key o k v)).
Proof.
  intros Hs. unfold add_own_key. destruct (array_index k) as [n|] eqn:Ek.
  - by apply insert_index_sorted.
  - rewrite map_app. simpl. apply StronglySorted_app; [done|repeat constructor|].
    intros x y _ [<-|[]]. unfold key_before. rewrite Ek.
    destruct (array_index x); done.
Qed.

Lemma add_own_key_named {V} (o : list (string * V)) k v :
  List.filter (fun x => bool_decide (array_index x = None)) (map fst (add_own_key o k v)) =
  List.filter (fun x => bool_decide (array_index x = None)) (map fst o) ++
  (if bool_decide (array_index k = None) then [k] else []).
Proof.
  unfold add_own_key. destruct (array_index k) as [n|] eqn:Ek.
  - rewrite bool_decide_eq_false_2 by done. rewrite app_nil_r.
    induction o as [|[k' v'] o IH]; simpl; [by rewrite ?Ek|].
    destruct (array_index k') as [n'|] eqn:Ek'; [destruct (n' <? n)%N|]; simpl;
      rewrite ?Ek, ?Ek'; simpl; rewrite ?IH; reflexivity.
  - rewrite bool_decide_eq_true_2 by done. rewrite map_app, List.filter_app; simpl; rewrite ?Ek; rewrite bool_decide_eq_true_2; done.
Qed.

(** Over the store, filling the mapping with fresh keys gives the
    entries of the schemas, listed in [Object.keys] order. *)
Lemma build_combinations_table acc l db :
  Forall (fun s => is_Some (options (attr s))) l ->
  NoDup (map fst acc ++ map (fun s => attribute_key (attr s)) l) ->
  ~ In "__proto__" (map (fun s => attribute_key (attr s)) l) ->
  StronglySorted key_before (map fst acc) ->
  exists m, build_combinations (S:=DB) acc l db = (Ok m, db) /\
    m ≡ₚ acc ++ map combination_entry l /\
    StronglySorted key_before (map fst m) /\
    List.filter (fun x => bool_decide (array_index x = None)) (map fst m) =
    List.filter (fun x => bool_decide (array_index x = None))
      (map fst acc ++ map (fun s => attribute_key (attr s)) l).
Proof.
  revert acc. induction l as [|s l IH]; intros acc Hopt Hnd Hp Hs; simpl.
  - exists acc. by rewrite !app_nil_r.
  - inversion Hopt as [|? ? [os Hos] Hopt']; subst.
    rewrite Hos. unfold js_set_obj.
    rewrite decide_False by (simpl in Hp; intros E; apply Hp; by left).
    rewrite decide_False.
    2:{ intros Hin. apply NoDup_app in Hnd as (_ & Hdis & _).
        apply (Hdis (attribute_key (attr s))); [done|]. simpl. left. }
    destruct (IH (add_own_key acc (attribute_key (attr s)) (option_values os)))
      as (m & Hb & Hperm & Hsort & Hnamed); [done| | |by apply add_own_key_sorted|].
    + rewrite add_own_key_perm, map_app, <- app_assoc. done.
    + simpl in Hp. tauto.
    + exists m. split; [done|]. split; [|split; [done|]].
      * rewrite Hperm, add_own_key_perm, <- app_assoc. unfold combination_entry. by rewrite Hos.
      * rewrite Hnamed, !List.filter_app, add_own_key_named, <- app_assoc. simpl.
        by destruct (bool_decide _).
Qed.

(** C10 (amended). For every product whose attribute schemas all have
    non-null options and pairwise distinct keys, none of them
    ["__proto__"], [getAttributeCombinations] returns one entry per
    schema of the product, mapping its key to the values of its options
    in stored order; every schema is included whatever its
    [is_variant_defining] flag. The entries are listed in the key order
    of a JavaScript object: keys that are array indices first, in
    ascending numeric order, then the other keys in the order of
    [getProductAttributes]. For a product with the variant-defining
    "color" and the non-variant-defining "material", both keys are in
    the mapping and every generated combination assigns a material; for
    "size" (sort order 0) and "10" (sort order 1) the key "10" comes
    first. *)
Theorem getAttributeCombinations_all_attributes :
  (forall pid db,
   Forall (fun s => is_Some (options (attr s))) (schemas_of_product db pid) ->
   NoDup (map (fun s => attribute_key (attr s)) (schemas_of_product db pid)) ->
   ~ In "__proto__" (map (fun s => attribute_key (attr s)) (schemas_of_product db pid)) ->
   exists m,
     getAttributeCombinations table_client pid db = (Ok m, db) /\
     m ≡ₚ map combination_entry (schemas_of_product db pid) /\
     (forall s, In s (schemas_of_product db pid) -> In (combination_entry s) m) /\
     StronglySorted key_before (map fst m) /\
     List.filter (fun x => bool_decide (array_index x = None)) (map fst m) =
     List.filter (fun x => bool_decide (array_index x = None))
       (map (fun s => attribute_key (attr s)) (merge_sort schema_le (schemas_of_product db pid)))) /\
  (let db := sample_store [schema_row 100 1 "color" (Some [opt "red"; opt "blue"]) 0 1;
                          {| attr_id := 101;
                             attr := {| product_id := 1; attribute_key := "material";
                                        attribute_label := "Material"; attribute_type := "select";
                                        options := Some [opt "cotton"]; default_value := None;
                                        is_required := false; is_variant_defining := false;
                                        validation_rules := None; help_text := None;
                                        sort_order := 1 |};
                             created_at := 2 |}] [] (Some "u1") in
  getAttributeCombinations table_client 1 db =
    (Ok [("color", ["red"; "blue"]); ("material", ["cotton"])], db) /\
  generateVariantCombinations [("color", ["red"; "blue"]); ("material", ["cotton"])] =
    [<["material":="cotton"]> {["color":="red"]}; <["material":="cotton"]> {["color":="blue"]}]) /\
  (let db := sample_store [schema_row 100 1 "size" (Some [opt "S"]) 0 1;
                          schema_row 101 1 "10" (Some [opt "x"]) 1 2] [] (Some "u1") in
  getAttributeCombinations table_client 1 db = (Ok [("10", ["x"]); ("size", ["S"])], db)).
Proof.
  split; [|split; [split|]; vm_compute; reflexivity].
  intros pid db Hopt Hnd Hp.
  pose proof (merge_sort_Permutation schema_le (schemas_of_product db pid)) as Hperm.
  destruct (build_combinations_table [] (merge_sort schema_le (schemas_of_product db pid)) db)
    as (m & Hb & Hm & Hs & Hn).
  - by rewrite Hperm.
  - simpl. by rewrite Hperm.
  - by rewrite Hperm.
  - constructor.
  - exists m. split; [|split; [|split; [|split]]].
    + cbv beta iota delta [getAttributeCombinations try_catch bindM createClient table_client retM].
      by rewrite getProductAttributes_table, Hb.
    + rewrite Hm. simpl. by apply Permutation_map.
    + intros s Hs'. apply list_elem_of_In. rewrite Hm. simpl.
      apply list_elem_of_In, in_map. rewrite <- list_elem_of_In, Hperm. by apply list_elem_of_In.
    + done.
    + by rewrite Hn.
Qed.

Lemma getAttributeCombinations_all_attributes_witness :
  let db := sample_store [schema_row 100 1 "color" (Some [opt "red"; opt "blue"]) 0 1;
                          schema_row 101 1 "size" (Some [opt "S"]) 1 2] [] (Some "u1") in
  exists m,
     getAttributeCombinations table_client 1 db = (Ok m, db) /\
     m ≡ₚ map combination_entry (schemas_of_product db 1) /\
     (forall s, In s (schemas_of_product db 1) -> In (combination_entry s) m) /\
     StronglySorted key_before (map fst m) /\
     List.filter (fun x => bool_decide (array_index x = None)) (map fst m) =
     List.filter (fun x => bool_decide (array_index x = None))
       (map (fun s => attribute_key (attr s)) (merge_sort schema_le (schemas_of_product db 1))).
Proof.
  apply (proj1 getAttributeCombinations_all_attributes).
  - repeat constructor; vm_compute; eauto.
  - apply (bool_decide_unpack _). vm_compute. reflexivity.
  - vm_compute. intuition discriminate.
Defined.

(** Counterexample to C10: an attribute with key ["__proto__"] gets no
    entry, since assigning an array to [__proto__] replaces the prototype
    of the mapping instead of adding a key. *)
Lemma getAttributeCombinations_drops_proto :
  let db := sample_store [schema_row 100 1 "__proto__" (Some [opt "x"]) 0 1;
                          schema_row 101 1 "size" (Some [opt "S"]) 1 2] [] (Some "u1") in
  getAttributeCombinations table_client 1 db = (Ok [("size", ["S"])], db).
Proof. vm_compute. reflexivity. Qed.

(* ------------------------------------------------------------------ *)
(** ** Further properties of the actions *)

Ltac run_all_actions :=
  unfold createProductAttribute, updateProductAttribute, deleteProductAttribute,
    updateAttributeOrder, addAttributeOption, removeAttributeOption, fetch_attribute,
    update_key_check, catch_envelope, try_catch, bindM, fail_with, throwM, retM, promise_all; simpl.

Lemma add_any_user i o db u :
  addAttributeOption table_client i o (with_user db u) =
  let '(r, db') := addAttributeOption table_client i o db in (r, with_user db' u).
Proof.
  run_all_actions. unfold with_user, with_schemas, schemas_with_id; simpl.
  repeat (case_match; simplify_eq/=); done.
Qed.

Lemma remove_any_user i v db u :
  removeAttributeOption table_client i v (with_user db u) =
  let '(r, db') := removeAttributeOption table_client i v db in (r, with_user db' u).
Proof.
  run_all_actions. unfold with_user, with_schemas, schemas_with_id; simpl.
  repeat (case_match; simplify_eq/=); done.
Qed.

Lemma updated_row_sort_order so so' s :
  updated_row (sort_order_update so) (updated_row (sort_order_update so') s) =
  updated_row (sort_order_update so) s.
Proof. destruct s as [? [] ?]; reflexivity. Qed.

Lemma update_rows_reorder j so f rows :
  update_rows j (sort_order_update so) (map (reorder_with f) rows) =
  map (reorder_with (fun i => if decide (j = i) then Some so else f i)) rows.
Proof.
  unfold update_rows. rewrite map_map. apply map_ext. intros s.
  unfold reorder_with. cbn beta.
  destruct (f (attr_id s)) eqn:Ef; simpl;
    destruct (decide (attr_id s = j)), (decide (j = attr_id s)); subst; try congruence;
    rewrite ?Ef; try apply updated_row_sort_order; reflexivity.
Qed.

Lemma fold_update_rows l f rows :
  fold_left (fun acc '(id, so) => update_rows id (sort_order_update so) acc) l
    (map (reorder_with f) rows) =
  map (reorder_with (fun i =>
         fold_left (fun acc '(j, so) => if decide (j = i) then Some so else acc) l (f i))) rows.
Proof.
  revert f. induction l as [|[j so] l IH]; intros f; simpl.
  - reflexivity.
  - rewrite update_rows_reorder, IH. reflexivity.
Qed.

Lemma map_lookup_list {A B} (f : A -> B) (l : list A) i : map f l !! i = f <$> l !! i.
Proof. revert i. induction l as [|x l IH]; intros [|i]; simpl; auto. Qed.

(** The store answers each update with no error, whatever the order. *)
Lemma serve_update_schema l arrival slots err db :
  serve (map (fun '(id, so) => update_schema table_client id (sort_order_update so)) l)
    arrival slots err db =
  (fold_left (fun sl i => match l !! i with
                          | Some _ => <[i := Some (Ok (ok_resp tt))]> sl
                          | None => sl
                          end) arrival slots,
   err,
   with_schemas db (fold_left (apply_order_update l) arrival (db_schemas db))).
Proof.
  revert slots err db. induction arrival as [|i arrival IH]; intros slots err db; simpl.
  - destruct db; reflexivity.
  - rewrite map_lookup_list. unfold apply_order_update at 2.
    destruct (l !! i) as [[id so]|]; simpl.
    + rewrite IH. destruct err; reflexivity.
    + apply IH.
Qed.

Lemma fill_keeps {A V} (l : list A) arrival (v : V) (slots : list V) j :
  slots !! j = Some v ->
  fold_left (fun sl i => match l !! i with Some _ => <[i := v]> sl | None => sl end)
    arrival slots !! j = Some v.
Proof.
  revert slots. induction arrival as [|i arrival IH]; intros slots Hj; simpl; [done|].
  apply IH. destruct (l !! i); [|done].
  destruct (decide (i = j)) as [->|Hne].
  - apply list_lookup_insert_eq. by eapply lookup_lt_Some.
  - by rewrite list_lookup_insert_ne.
Qed.

Lemma fill_length {A V} (l : list A) arrival (v : V) (slots : list V) :
  length (fold_left (fun sl i => match l !! i with Some _ => <[i := v]> sl | None => sl end)
            arrival slots) = length slots.
Proof.
  revert slots. induction arrival as [|i arrival IH]; intros slots; simpl; [done|].
  rewrite IH. destruct (l !! i); [apply length_insert|done].
Qed.

Lemma fill_arrived {A V} (l : list A) arrival (v : V) (slots : list V) j :
  j ∈ arrival -> j < length l -> length slots = length l ->
  fold_left (fun sl i => match l !! i with Some _ => <[i := v]> sl | None => sl end)
    arrival slots !! j = Some v.
Proof.
  revert slots. induction arrival as [|i arrival IH]; intros slots Hin Hj Hlen; simpl.
  - by apply not_elem_of_nil in Hin.
  - apply elem_of_cons in Hin as [<-|Hin].
    + apply fill_keeps. destruct (lookup_lt_is_Some_2 l j Hj) as [x ->].
      apply list_lookup_insert_eq. lia.
    + apply IH; [done|done|]. destruct (l !! i); [by rewrite length_insert|done].
Qed.

(** When every request is answered, every slot holds its answer. *)
Lemma fill_all {A V} (l : list A) arrival (v : V) :
  arrival ≡ₚ seq 0 (length l) ->
  fold_left (fun sl i => match l !! i with Some _ => <[i := Some v]> sl | None => sl end)
    arrival (replicate (length l) None) = replicate (length l) (Some v).
Proof.
  intros Hp. apply list_eq. intros j.
  destruct (decide (j < length l)) as [Hj|Hj].
  - rewrite lookup_replicate_2 by done. apply fill_arrived; [|done|by rewrite length_replicate].
    rewrite Hp, elem_of_seq. lia.
  - rewrite !lookup_ge_None_2; [done| |]; rewrite ?fill_length, length_replicate; lia.
Qed.

Lemma collect_replicate {A} n (a : A) :
  collect (map (default (Throw NonError)) (replicate n (Some (Ok a)))) = Ok (replicate n a).
Proof. induction n as [|n IH]; simpl; [done|]. by rewrite IH. Qed.

Lemma existsb_replicate_ok n :
  existsb (fun r : Resp unit => bool_decide (is_Some (resp_error r))) (replicate n (ok_resp tt))
  = false.
Proof. induction n as [|n IH]; simpl; [done|]. by rewrite IH. Qed.

(** Once the store has answered every request, in any order,
    [updateAttributeOrder] succeeds with the writes applied in that
    order. *)
Lemma updateAttributeOrder_table l arrival db :
  arrival ≡ₚ seq 0 (length l) ->
  updateAttributeOrder table_client l arrival db =
  (Ok (Success None), with_schemas db (fold_left (apply_order_update l) arrival (db_schemas db))).
Proof.
  intros Hp.
  unfold updateAttributeOrder, catch_envelope, try_catch, bindM, promise_all, retM, fail_with.
  change (createClient table_client) with (@retM DB unit tt). unfold retM.
  cbv beta iota. rewrite serve_update_schema, length_map.
  rewrite (fill_all l arrival (Ok (ok_resp tt)) Hp).
  cbv beta iota. rewrite collect_replicate. cbv beta iota.
  rewrite existsb_replicate_ok. reflexivity.
Qed.

Lemma update_rows_comm j k so1 so2 rows :
  j <> k ->
  update_rows j (sort_order_update so1) (update_rows k (sort_order_update so2) rows) =
  update_rows k (sort_order_update so2) (update_rows j (sort_order_update so1) rows).
Proof.
  intros Hne. unfold update_rows. rewrite !map_map. apply map_ext. intros s. simpl.
  destruct (decide (attr_id s = k)), (decide (attr_id s = j)); simpl;
    repeat (case_decide; simpl); try congruence; reflexivity.
Qed.

(** Folding writes that pairwise commute gives the same result in any
    order. *)
Lemma fold_left_perm_comm {A B} (f : B -> A -> B) (l1 l2 : list A) b :
  l1 ≡ₚ l2 -> NoDup l1 ->
  (forall x y c, x ∈ l1 -> y ∈ l1 -> x <> y -> f (f c x) y = f (f c y) x) ->
  fold_left f l1 b = fold_left f l2 b.
Proof.
  intros Hp. revert b.
  induction Hp as [|x l1 l2 Hp IH|x y l|l1 l2 l3 Hp1 IH1 Hp2 IH2]; intros b Hnd Hc; simpl.
  - done.
  - apply NoDup_cons in Hnd as [_ Hnd]. apply IH; [done|].
    intros u w c Hu Hw. apply Hc; by apply elem_of_cons; right.
  - apply NoDup_cons in Hnd as [Hy _]. rewrite (Hc y x b); [done| | |].
    + by apply elem_of_cons; left.
    + by apply elem_of_cons; right; apply elem_of_cons; left.
    + intros ->. apply Hy. by apply elem_of_cons; left.
  - rewrite (IH1 b Hnd Hc). apply IH2.
    + by rewrite <- Hp1.
    + intros u w c Hu Hw. apply Hc; by rewrite Hp1.
Qed.

Lemma fold_seq_orders pre l rows :
  fold_left (apply_order_update (pre ++ l)) (seq (length pre) (length l)) rows =
  fold_left (fun acc '(id, so) => update_rows id (sort_order_update so) acc) l rows.
Proof.
  revert pre rows. induction l as [|[id so] l IH]; intros pre rows; simpl; [done|].
  unfold apply_order_update at 2. rewrite list_lookup_middle by done.
  specialize (IH (pre ++ [(id, so)]) (update_rows id (sort_order_update so) rows)).
  rewrite <- app_assoc, List.length_app in IH. simpl in IH.
  replace (length pre + 1)%nat with (S (length pre)) in IH by lia. done.
Qed.

Lemma fold_orders_reorder l rows :
  fold_left (fun acc '(id, so) => update_rows id (sort_order_update so) acc) l rows =
  map (reorder_row l) rows.
Proof.
  assert (Hid : rows = map (reorder_with (fun _ => None)) rows).
  { rewrite <- (map_id rows) at 1. apply map_ext. reflexivity. }
  rewrite Hid at 1. rewrite fold_update_rows.
  apply map_ext. reflexivity.
Qed.

(** Once [createClient()] succeeds, [getProductAttributeSchema] never
    throws and always returns a truthy value: the data of the rpc when it
    answers without error and with truthy data, [{}] in every other case
    (an error, a rejection, [null] or falsy data). *)
Theorem getProductAttributeSchema_outcome {S} (C : SupabaseClient S) (R : RpcMethods S)
    pid s s1 r s2 :
  createClient C s = (Ok tt, s1) ->
  rpc_get_product_attribute_schema R pid s1 = (r, s2) ->
  exists j, getProductAttributeSchema C R pid s = (Ok j, s2) /\ js_truthy j = true /\
    (forall resp j', r = Ok resp -> resp_error resp = None -> resp_data resp = Some j' ->
       js_truthy j' = true -> j = j') /\
    (j = JObj [] \/ exists resp, r = Ok resp /\ resp_error resp = None /\ resp_data resp = Some j).
Proof.
  intros Hc Hr. unfold getProductAttributeSchema, try_catch, bindM, fail_with, throwM, retM.
  rewrite Hc, Hr.
  destruct r as [resp|e].
  - destruct (resp_error resp) as [m|] eqn:He.
    + exists (JObj []). split; [done|]. split; [done|]. split; [|by left].
      intros ? ? [= <-]. congruence.
    + destruct (resp_data resp) as [j|] eqn:Hd.
      * destruct (js_truthy j) eqn:Ht.
        -- exists j. split; [done|]. split; [done|]. split.
           ++ intros ? ? [= <-] _ Hd' Ht'. congruence.
           ++ right. by exists resp.
        -- exists (JObj []). split; [done|]. split; [done|]. split; [|by left].
           intros ? ? [= <-] _ Hd' Ht'. congruence.
      * exists (JObj []). split; [done|]. split; [done|]. split; [|by left].
        intros ? ? [= <-] _ Hd' Ht'. congruence.
  - exists (JObj []). split; [done|]. split; [done|]. split; [|by left]. done.
Qed.

(** Once [createClient()] succeeds, [validateAttributeValues] never
    throws: an answer without error gives [{ success: true, valid: data }],
    an error answer gives [{ success: false, error }] with the error's
    message, and a rejection gives the message of what was thrown. *)
Theorem validateAttributeValues_outcome {S} (C : SupabaseClient S) (R : RpcMethods S)
    pid av s s1 r s2 :
  createClient C s = (Ok tt, s1) ->
  rpc_validate_attribute_values R pid av s1 = (r, s2) ->
  exists v, validateAttributeValues C R pid av s = (Ok v, s2) /\
    (forall resp, r = Ok resp -> resp_error resp = None -> v = Validated (resp_data resp)) /\
    (forall resp m, r = Ok resp -> resp_error resp = Some m -> v = ValidationFailed m) /\
    (forall e, r = Throw e -> v = ValidationFailed (error_message e)).
Proof.
  intros Hc Hr. unfold validateAttributeValues, try_catch, bindM, fail_with, throwM, retM.
  rewrite Hc, Hr.
  destruct r as [resp|e].
  - destruct (resp_error resp) as [m|] eqn:He.
    + eexists. split; [done|]. split; [intros ? [= <-] ?; congruence|].
      split; [intros ? ? [= <-] ?; simpl; congruence|]. by intros ? [=].
    + eexists. split; [done|]. split; [by intros ? [= <-]|].
      split; [intros ? ? [= <-] ?; congruence|]. by intros ? [=].
  - eexists. split; [done|]. split; [by intros ? [=]|]. split; [by intros ? ? [=]|].
    by intros ? [= <-].
Qed.

(** A rejection of [createClient()] is not caught by either rpc wrapper:
    both reject with it, in the state it left. *)
Theorem rpc_wrappers_createClient_escapes {S} (C : SupabaseClient S) (R : RpcMethods S)
    pid av s e s1 :
  createClient C s = (Throw e, s1) ->
  getProductAttributeSchema C R pid s = (Throw e, s1) /\
  validateAttributeValues C R pid av s = (Throw e, s1).
Proof.
  intros Hc. unfold getProductAttributeSchema, validateAttributeValues, bindM.
  by rewrite Hc.
Qed.

(** When some key of [attributes] is the empty string, the generator
    returns no combination at all ([if (!currentKey) return]). *)
Theorem generateVariantCombinations_empty_key (A : list (string * list string)) :
  In "" (map fst A) -> generateVariantCombinations A = [].
Proof.
  intros Hin. unfold generateVariantCombinations.
  rewrite generateCombination_out. simpl. unfold emitted.
  replace (has_empty_key (map fst A)) with true; [done|].
  symmetry. apply existsb_exists. exists "". split; [done|]. by apply bool_decide_eq_true_2.
Qed.

Lemma value_paths_empty (A : list (string * list string)) k ks :
  assoc_get k A = Some [] -> In k ks -> value_paths A ks = [].
Proof.
  intros Hk. induction ks as [|k' ks IH]; intros Hin; [done|]. simpl.
  destruct Hin as [->|Hin].
  - by rewrite Hk.
  - rewrite IH by done. destruct (assoc_get k' A) as [vs|]; [|done].
    induction vs; simpl; done.
Qed.

(** When some attribute has an empty value list, the generator returns
    no combination at all. *)
Theorem generateVariantCombinations_empty_values (A : list (string * list string)) k :
  NoDup (map fst A) -> In (k, []) A -> generateVariantCombinations A = [].
Proof.
  intros Hnd Hin. unfold generateVariantCombinations.
  rewrite generateCombination_out. simpl. unfold emitted.
  destruct (has_empty_key _); [done|].
  rewrite (value_paths_empty A k); [done| by apply assoc_get_NoDup|].
  apply in_map_iff. by exists (k, []).
Qed.

Lemma filter_id_absent i l :
  Forall (fun s => attr_id s <> i) l ->
  List.filter (fun s => bool_decide (attr_id s = i)) l = [].
Proof.
  induction 1 as [|s l Hs _ IH]; simpl; [done|].
  by rewrite bool_decide_eq_false_2.
Qed.

(** A successful creation appends the row built from the data, with the
    next identity value and the current time; when that identity value is
    not used yet, [getProductAttributeById] then returns exactly that row. *)
Theorem createProductAttribute_then_get d db r db' :
  createProductAttribute table_client d db = (Ok (Success r), db') ->
  let row := {| attr_id := db_next_id db; attr := insert_fields d; created_at := db_now db |} in
  r = Some row /\ db_schemas db' = db_schemas db ++ [row] /\
  (Forall (fun s => attr_id s <> db_next_id db) (db_schemas db) ->
   getProductAttributeById table_client (db_next_id db) db' = (Ok (Some row), db')).
Proof.
  run_all_actions. unfold db_insert.
  repeat (case_match; simpl in *); intros; simplify_eq/=.
  split; [done|]. split; [done|]. intros Hf.
  unfold getProductAttributeById, try_catch, bindM, retM. simpl.
  unfold schemas_with_id. simpl. rewrite List.filter_app, filter_id_absent by done. simpl.
  rewrite bool_decide_eq_true_2 by done. reflexivity.
Qed.

Lemma filter_removed_id i l :
  List.filter (fun s => bool_decide (attr_id s = i))
    (List.filter (fun s => negb (bool_decide (attr_id s = i))) l) = [].
Proof.
  induction l as [|s l IH]; simpl; [done|].
  destruct (bool_decide (attr_id s = i)) eqn:E; simpl; [done|]. by rewrite E.
Qed.

(** A successful deletion removes every row with the id, and
    [getProductAttributeById] then returns [null]. *)
Theorem deleteProductAttribute_then_get i db r db' :
  deleteProductAttribute table_client i db = (Ok (Success r), db') ->
  db_schemas db' = List.filter (fun s => negb (bool_decide (attr_id s = i))) (db_schemas db) /\
  schemas_with_id db' i = [] /\
  getProductAttributeById table_client i db' = (Ok None, db').
Proof.
  run_all_actions. repeat (case_match; simpl in *); intros; simplify_eq/=.
  all: assert (Hn : schemas_with_id (with_schemas db
           (List.filter (fun s => negb (bool_decide (attr_id s = i))) (db_schemas db))) i = [])
         by apply filter_removed_id.
  all: split; [done|]; split; [done|].
  all: unfold getProductAttributeById, try_catch, bindM, retM; simpl; by rewrite Hn.
Qed.

(** A successful update had exactly one row with the id; it applies the
    update to that row only, returns the updated row, and
    [getProductAttributeById] then returns that same row. *)
Theorem updateProductAttribute_then_get d db r db' :
  updateProductAttribute table_client d db = (Ok (Success r), db') ->
  exists old, schemas_with_id db (upd_id d) = [old] /\
    r = Some (updated_row (upd d) old) /\
    db_schemas db' = update_rows (upd_id d) (upd d) (db_schemas db) /\
    getProductAttributeById table_client (upd_id d) db' = (Ok r, db').
Proof.
  run_all_actions. repeat (case_match; simpl in *); intros; simplify_eq/=.
  all: try match goal with
       | H : resp_error (single (schemas_with_id (with_schemas _ _) _)) = None |- _ =>
           unfold schemas_with_id in H; simpl in H; rewrite filter_update_rows in H
       end.
  all: match goal with
       | H : resp_error (single (map _ (List.filter ?f (db_schemas ?db0)))) = None |- _ =>
           destruct (List.filter f (db_schemas db0)) as [|old [|? ?]] eqn:E;
           simpl in H; try discriminate
       end.
  all: exists old; unfold schemas_with_id; simpl; rewrite ?filter_update_rows, ?E.
  all: split; [done|]; split; [done|]; split; [done|].
  all: unfold getProductAttributeById, try_catch, bindM, retM; simpl.
  all: unfold schemas_with_id; simpl; rewrite filter_update_rows, E; reflexivity.
Qed.

Lemma addAttributeOption_table i o db :
  addAttributeOption table_client i o db =
  match schemas_with_id db i with
  | [a] =>
      match options (attr a) with
      | None => (Ok (Failure "Cannot read properties of null (reading 'some')"), db)
      | Some os =>
          if existsb (fun e => bool_decide (value e = value o)) os
          then (Ok (Failure "Option value already exists"), db)
          else (Ok (Success None),
                with_schemas db (update_rows i (options_update (os ++ [o])) (db_schemas db)))
      end
  | _ => (Ok (Failure "Attribute not found"), db)
  end.
Proof.
  run_all_actions. unfold schemas_with_id.
  destruct (List.filter _ (db_schemas db)) as [|a [|b l]]; simpl; try reflexivity.
  destruct (options (attr a)) as [os|]; simpl; [|reflexivity].
  destruct (existsb _ os); reflexivity.
Qed.

Lemma removeAttributeOption_table i v db :
  removeAttributeOption table_client i v db =
  match schemas_with_id db i with
  | [a] =>
      match options (attr a) with
      | None => (Ok (Failure "Cannot read properties of null (reading 'filter')"), db)
      | Some os =>
          let kept := List.filter (fun o => negb (bool_decide (value o = v))) os in
          if Nat.eqb (length kept) (length os)
          then (Ok (Failure "Option not found"), db)
          else if option_in_use (attribute_key (attr a)) v
                    (Some (List.filter (fun var => bool_decide (variant_product_id var = product_id (attr a)))
                             (db_variants db)))
          then (Ok (Failure "Cannot remove option that is used by variants"), db)
          else (Ok (Success None),
                with_schemas db (update_rows i (options_update kept) (db_schemas db)))
      end
  | _ => (Ok (Failure "Attribute not found"), db)
  end.
Proof.
  run_all_actions. unfold schemas_with_id.
  destruct (List.filter _ (db_schemas db)) as [|a [|b l]]; simpl; try reflexivity.
  destruct (options (attr a)) as [os|]; simpl; [|reflexivity].
  destruct (Nat.eqb _ _); [reflexivity|].
  destruct (existsb (variant_has_value (attribute_key (attr a)) v) _); reflexivity.
Qed.

Lemma existsb_value_false o os :
  existsb (fun e => bool_decide (value e = value o)) os = false <-> ~ In (value o) (map value os).
Proof.
  split.
  - intros H Hin. apply in_map_iff in Hin as (e & He & Hin).
    assert (existsb (fun e => bool_decide (value e = value o)) os = true); [|congruence].
    apply existsb_exists. exists e. split; [done|]. by apply bool_decide_eq_true_2.
  - intros Hn. apply not_true_iff_false. intros H.
    apply existsb_exists in H as (e & Hin & He). apply bool_decide_eq_true_1 in He.
    apply Hn. rewrite <- He. by apply in_map.
Qed.

Lemma NoDup_map_filter {A B} (g : A -> B) (p : A -> bool) l :
  NoDup (map g l) -> NoDup (map g (List.filter p l)).
Proof.
  induction l as [|x l IH]; simpl; [by constructor|].
  intros Hnd. apply NoDup_cons in Hnd as [Hn Hnd].
  destruct (p x); simpl; [|auto]. apply NoDup_cons. split; [|auto].
  intros Hin%list_elem_of_In. apply Hn, list_elem_of_In. apply in_map_iff in Hin as (y & Hy & Hin).
  rewrite <- Hy. apply in_map. by apply filter_In in Hin as [? _].
Qed.

Lemma schemas_with_id_unique db i a s :
  schemas_with_id db i = [a] -> In s (db_schemas db) -> attr_id s = i -> s = a.
Proof.
  intros Ha Hs Hi.
  assert (Hin : In s (schemas_with_id db i)).
  { unfold schemas_with_id. apply filter_In. split; [done|]. by apply bool_decide_eq_true_2. }
  rewrite Ha in Hin. by destruct Hin as [->|[]].
Qed.

(** [addAttributeOption] keeps the option values of every row pairwise
    distinct. *)
Theorem addAttributeOption_keeps_values_distinct i o db r db' :
  Forall (fun s => forall os, options (attr s) = Some os -> NoDup (map value os)) (db_schemas db) ->
  addAttributeOption table_client i o db = (r, db') ->
  Forall (fun s => forall os, options (attr s) = Some os -> NoDup (map value os)) (db_schemas db').
Proof.
  intros Hall. rewrite addAttributeOption_table.
  destruct (schemas_with_id db i) as [|a [|b l]] eqn:Ea; try (intros [= <- <-]; done).
  destruct (options (attr a)) as [os|] eqn:Eo; [|intros [= <- <-]; done].
  destruct (existsb _ os) eqn:Ex; [intros [= <- <-]; done|].
  intros [= <- <-]. simpl. apply Forall_forall. intros s' Hs'%list_elem_of_In. unfold update_rows in Hs'.
  apply in_map_iff in Hs' as (s & <- & Hs).
  rewrite Forall_forall in Hall. setoid_rewrite list_elem_of_In in Hall.
  destruct (decide (attr_id s = i)) as [Hi|Hi]; [|by apply Hall].
  pose proof (schemas_with_id_unique db i a s Ea Hs Hi) as ->.
  simpl. intros os' [= <-]. rewrite map_app. apply NoDup_app. split_and!.
  - by apply (Hall a).
  - intros x Hx ->%list_elem_of_singleton. apply list_elem_of_In in Hx.
    by apply existsb_value_false in Ex.
  - apply NoDup_singleton.
Qed.

(** [removeAttributeOption] keeps the option values of every row pairwise
    distinct. *)
Theorem removeAttributeOption_keeps_values_distinct i v db r db' :
  Forall (fun s => forall os, options (attr s) = Some os -> NoDup (map value os)) (db_schemas db) ->
  removeAttributeOption table_client i v db = (r, db') ->
  Forall (fun s => forall os, options (attr s) = Some os -> NoDup (map value os)) (db_schemas db').
Proof.
  intros Hall. rewrite removeAttributeOption_table.
  destruct (schemas_with_id db i) as [|a [|b l]] eqn:Ea; try (intros [= <- <-]; done).
  destruct (options (attr a)) as [os|] eqn:Eo; [|intros [= <- <-]; done].
  cbv zeta. destruct (Nat.eqb _ _); [intros [= <- <-]; done|].
  destruct (option_in_use _ _ _); [intros [= <- <-]; done|].
  intros [= <- <-]. simpl. apply Forall_forall. intros s' Hs'%list_elem_of_In. unfold update_rows in Hs'.
  apply in_map_iff in Hs' as (s & <- & Hs).
  rewrite Forall_forall in Hall. setoid_rewrite list_elem_of_In in Hall.
  destruct (decide (attr_id s = i)) as [Hi|Hi]; [|by apply Hall].
  pose proof (schemas_with_id_unique db i a s Ea Hs Hi) as ->.
  simpl. intros os' [= <-]. apply NoDup_map_filter. by apply (Hall a).
Qed.

Lemma filter_value_appended v os o :
  ~ In v (map value os) -> value o = v ->
  List.filter (fun o' => negb (bool_decide (value o' = v))) (os ++ [o]) = os.
Proof.
  intros Hn Ho. rewrite List.filter_app. simpl. rewrite bool_decide_eq_true_2 by done.
  simpl. rewrite app_nil_r. induction os as [|x os IH]; simpl; [done|].
  rewrite bool_decide_eq_false_2; [|intros <-; apply Hn; by left]. simpl.
  f_equal. apply IH. intros Hin. apply Hn. by right.
Qed.

Lemma update_rows_options_back i os os' rows :
  (forall s, In s rows -> attr_id s = i -> options (attr s) = Some os) ->
  update_rows i (options_update os) (update_rows i (options_update os') rows) = rows.
Proof.
  induction rows as [|s rows IH]; intros Hs; simpl; [done|].
  f_equal; [|apply IH; intros s' Hin Hi; apply Hs; [by right|done]].
  destruct (decide (attr_id s = i)) as [Hi|Hi]; simpl.
  - rewrite decide_True by done. specialize (Hs s (or_introl eq_refl) Hi).
    destruct s as [id [] t]; simpl in *. by rewrite Hs.
  - by rewrite decide_False by done.
Qed.

(** Adding a fresh option and then removing its value, when no variant
    of the product uses that value, succeeds twice and gives back the
    store it started from. *)
Theorem addAttributeOption_then_remove i o db a os :
  schemas_with_id db i = [a] -> options (attr a) = Some os ->
  ~ In (value o) (map value os) ->
  Forall (fun var => variant_product_id var = product_id (attr a) ->
                     variant_has_value (attribute_key (attr a)) (value o) var = false)
    (db_variants db) ->
  then_run (addAttributeOption table_client i o) (removeAttributeOption table_client i (value o)) db
  = (Ok (Success None, Success None), db).
Proof.
  intros Ha Hos Hn Hv. unfold then_run. rewrite addAttributeOption_table, Ha, Hos.
  apply existsb_value_false in Hn as Hx. rewrite Hx.
  rewrite removeAttributeOption_table.
  assert (Ha' : schemas_with_id (with_schemas db (update_rows i (options_update (os ++ [o]))
                  (db_schemas db))) i = [updated_row (options_update (os ++ [o])) a]).
  { unfold schemas_with_id in *. simpl. by rewrite filter_update_rows, Ha. }
  rewrite Ha'. simpl. rewrite filter_value_appended by done.
  replace (Nat.eqb (length os) (length (os ++ [o]))) with false
    by (symmetry; apply Nat.eqb_neq; rewrite length_app; simpl; lia).
  replace (existsb _ _) with false.
  2:{ symmetry. apply not_true_iff_false. intros (var & Hin & Hvar)%existsb_exists.
      apply filter_In in Hin as [Hin Hp]. apply bool_decide_eq_true_1 in Hp.
      rewrite Forall_forall in Hv. apply list_elem_of_In in Hin.
      specialize (Hv var Hin Hp). simpl in Hvar. congruence. }
  simpl. rewrite update_rows_options_back.
  - by destruct db.
  - intros s Hs Hi. by rewrite (schemas_with_id_unique db i a s Ha Hs Hi).
Qed.

Lemma build_combinations_null acc l db :
  Exists (fun s => options (attr s) = None) l ->
  build_combinations (S:=DB) acc l db = (Throw (null_method_error "map"), db).
Proof.
  revert acc. induction l as [|s l IH]; intros acc Hex; [inversion Hex|].
  simpl. destruct (options (attr s)) as [os|] eqn:Eo; [|reflexivity].
  apply IH. inversion Hex as [? ? Hs|? ? Hl]; subst; [congruence|done].
Qed.

(** A schema of the product whose [options] is [null] makes
    [getAttributeCombinations] return [{}], whatever the other schemas. *)
Theorem getAttributeCombinations_null_options pid db s :
  In s (db_schemas db) -> product_id (attr s) = pid -> options (attr s) = None ->
  getAttributeCombinations table_client pid db = (Ok [], db).
Proof.
  intros Hin Hp Ho.
  cbv beta iota delta [getAttributeCombinations try_catch bindM createClient table_client retM].
  rewrite getProductAttributes_table, build_combinations_null; [reflexivity|].
  apply Exists_exists. exists s. split; [|done].
  rewrite (merge_sort_Permutation schema_le (schemas_of_product db pid)).
  apply list_elem_of_In. unfold schemas_of_product. apply filter_In.
  split; [done|]. by apply bool_decide_eq_true_2.
Qed.

Lemma create_failure_store d db m db' :
  createProductAttribute table_client d db = (Ok (Failure m), db') -> db' = db.
Proof.
  run_all_actions. unfold db_insert. repeat (case_match; simplify_eq/=); intros; simplify_eq/=; done.
Qed.

Lemma delete_failure_store i db m db' :
  deleteProductAttribute table_client i db = (Ok (Failure m), db') -> db' = db.
Proof.
  run_all_actions. repeat (case_match; simplify_eq/=); intros; simplify_eq/=; done.
Qed.

Lemma add_failure_store i o db m db' :
  addAttributeOption table_client i o db = (Ok (Failure m), db') -> db' = db.
Proof.
  rewrite addAttributeOption_table. repeat (case_match; simplify_eq/=); intros; simplify_eq/=; done.
Qed.

Lemma remove_failure_store i v db m db' :
  removeAttributeOption table_client i v db = (Ok (Failure m), db') -> db' = db.
Proof.
  rewrite removeAttributeOption_table. repeat (case_match; simplify_eq/=); intros; simplify_eq/=; done.
Qed.

Lemma update_failure_store d db m db' :
  updateProductAttribute table_client d db = (Ok (Failure m), db') -> db' = db.
Proof.
  run_all_actions. repeat (case_match; simplify_eq/=); intros; simplify_eq/=. all: try done.
  all: match goal with
       | H0 : owner_of_schema _ = Some (?k, ?p, ?o),
         H3 : resp_error _ = Some _ |- _ =>
           destruct (schema_owner_row _ _ k p o H0) as (x & Hx & _ & _);
           unfold schemas_with_id in H3, Hx; simpl in H3;
           rewrite filter_update_rows, Hx in H3; discriminate
       end.
Qed.


(** [updateAttributeOrder] on the store sends one update per pair, all
    at once, and the store may apply them in any order. When the ids are
    pairwise distinct, whatever that order, the action answers
    [{ success: true }], every listed row gets the sort order given for
    its id and every other row is unchanged. With a repeated id the
    outcome depends on the order: the update applied last wins. *)
Theorem updateAttributeOrder_reorders :
  (forall l arrival db,
   arrival ≡ₚ seq 0 (length l) ->
   NoDup (map fst l) ->
   updateAttributeOrder table_client l arrival db =
   (Ok (Success None), with_schemas db (map (reorder_row l) (db_schemas db)))) /\
  (let db := sample_store [schema_row 100 1 "color" (Some [opt "red"]) 0 1] [] (Some "u1") in
   map (fun s => sort_order (attr s))
     (db_schemas (snd (updateAttributeOrder table_client [(100%Z, 1%Z); (100%Z, 2%Z)] [0; 1] db)))
   = [2%Z] /\
   map (fun s => sort_order (attr s))
     (db_schemas (snd (updateAttributeOrder table_client [(100%Z, 1%Z); (100%Z, 2%Z)] [1; 0] db)))
   = [1%Z]).
Proof.
  split; [|split; vm_compute; reflexivity].
  intros l arrival db Hp Hnd.
  rewrite updateAttributeOrder_table by done. do 3 f_equal.
  rewrite (fold_left_perm_comm _ arrival (seq 0 (length l))); [| done | | ].
  - by rewrite (fold_seq_orders [] l), fold_orders_reorder.
  - rewrite Hp. apply NoDup_seq.
  - intros x y c Hx Hy Hxy. rewrite Hp, elem_of_seq in Hx, Hy.
    destruct (lookup_lt_is_Some_2 l x) as [[idx sox] Ex]; [lia|].
    destruct (lookup_lt_is_Some_2 l y) as [[idy soy] Ey]; [lia|].
    unfold apply_order_update. rewrite Ex, Ey. apply update_rows_comm.
    intros Heq. apply Hxy. apply (NoDup_lookup (map fst l) x y idx Hnd).
    + by rewrite map_lookup_list, Ex.
    + by rewrite map_lookup_list, Ey, Heq.
Qed.

(** [addAttributeOption], [removeAttributeOption] and
    [updateAttributeOrder] do not depend on the session user: with any
    user, or none, they give the same result and the same writes. *)
Theorem option_edits_ignore_session_user db u :
  (forall i o, addAttributeOption table_client i o (with_user db u) =
     let '(r, db') := addAttributeOption table_client i o db in (r, with_user db' u)) /\
  (forall i v, removeAttributeOption table_client i v (with_user db u) =
     let '(r, db') := removeAttributeOption table_client i v db in (r, with_user db' u)) /\
  (forall l arrival, updateAttributeOrder table_client l arrival (with_user db u) =
     let '(r, db') := updateAttributeOrder table_client l arrival db in (r, with_user db' u)).
Proof.
  split; [intros; apply add_any_user|]. split; [intros; apply remove_any_user|].
  intros l arrival.
  unfold updateAttributeOrder, catch_envelope, try_catch, bindM, promise_all, retM, fail_with.
  change (createClient table_client) with (@retM DB unit tt). unfold retM.
  cbv beta iota. rewrite !serve_update_schema.
  destruct (collect _) as [a|e]; cbv beta iota; [destruct (existsb _ a)|]; unfold throwM;
    destruct db; reflexivity.
Qed.

(** A mutation that answers [{ success: false }] has written nothing:
    the store is unchanged. *)
Theorem failed_mutations_keep_store db m db' :
  (forall d, createProductAttribute table_client d db = (Ok (Failure m), db') -> db' = db) /\
  (forall d, updateProductAttribute table_client d db = (Ok (Failure m), db') -> db' = db) /\
  (forall i, deleteProductAttribute table_client i db = (Ok (Failure m), db') -> db' = db) /\
  (forall i o, addAttributeOption table_client i o db = (Ok (Failure m), db') -> db' = db) /\
  (forall i v, removeAttributeOption table_client i v db = (Ok (Failure m), db') -> db' = db).
Proof.
  split; [intros d; apply create_failure_store|].
  split; [intros d; apply update_failure_store|].
  split; [intros i; apply delete_failure_store|].
  split; [intros i o; apply add_failure_store|].
  intros i v; apply remove_failure_store.
Qed.

Lemma getProductAttributeSchema_outcome_witness :
  exists j, getProductAttributeSchema table_client sample_rpc 1 (sample_store [] [] None)
              = (Ok j, sample_store [] [] None) /\ js_truthy j = true /\
    (forall resp j', Ok (ok_resp (JObj [("color", JArr [JStr "red"])])) = Ok resp ->
       resp_error resp = None -> resp_data resp = Some j' -> js_truthy j' = true -> j = j') /\
    (j = JObj [] \/ exists resp, Ok (ok_resp (JObj [("color", JArr [JStr "red"])])) = Ok resp /\
                                 resp_error resp = None /\ resp_data resp = Some j).
Proof.
  apply (getProductAttributeSchema_outcome table_client sample_rpc 1 (sample_store [] [] None)
           (sample_store [] [] None)); reflexivity.
Defined.

Lemma validateAttributeValues_outcome_witness :
  exists v, validateAttributeValues table_client sample_rpc 1 (JObj []) (sample_store [] [] None)
              = (Ok v, sample_store [] [] None) /\
    (forall resp : Resp Json, Ok (err_resp "missing required attribute") = Ok resp ->
       resp_error resp = None -> v = Validated (resp_data resp)) /\
    (forall (resp : Resp Json) m, Ok (err_resp "missing required attribute") = Ok resp ->
       resp_error resp = Some m -> v = ValidationFailed m) /\
    (forall e, Ok (err_resp (A:=Json) "missing required attribute") = Throw e ->
       v = ValidationFailed (error_message e)).
Proof.
  apply (validateAttributeValues_outcome table_client sample_rpc 1 (JObj [])
           (sample_store [] [] None) (sample_store [] [] None)); reflexivity.
Defined.

Lemma rpc_wrappers_createClient_escapes_witness :
  getProductAttributeSchema failing_client sample_rpc 1 (sample_store [] [] None) =
    (Throw (ErrorObj "cookies was called outside a request scope"), sample_store [] [] None) /\
  validateAttributeValues failing_client sample_rpc 1 (JObj []) (sample_store [] [] None) =
    (Throw (ErrorObj "cookies was called outside a request scope"), sample_store [] [] None).
Proof. apply rpc_wrappers_createClient_escapes. reflexivity. Defined.

Lemma generateVariantCombinations_empty_key_witness :
  generateVariantCombinations [("size", ["S"; "M"]); ("", ["x"])] = [].
Proof. apply generateVariantCombinations_empty_key. simpl. tauto. Defined.

Lemma generateVariantCombinations_empty_values_witness :
  generateVariantCombinations [("color", []); ("size", ["S"; "M"])] = [].
Proof.
  apply (generateVariantCombinations_empty_values _ "color").
  - apply NoDup_cons. split; [|apply NoDup_singleton]. rewrite list_elem_of_singleton. done.
  - by left.
Defined.

Lemma createProductAttribute_then_get_witness :
  let db := sample_store [schema_row 100 1 "color" (Some [opt "red"]) 0 1] [] (Some "u1") in
  exists r db',
    createProductAttribute table_client (create_data 1 "size") db = (Ok (Success r), db') /\
    let row := {| attr_id := db_next_id db; attr := insert_fields (create_data 1 "size");
                  created_at := db_now db |} in
    r = Some row /\ db_schemas db' = db_schemas db ++ [row] /\
    getProductAttributeById table_client (db_next_id db) db' = (Ok (Some row), db').
Proof.
  intros db. do 2 eexists. split; [vm_compute; reflexivity|].
  destruct (createProductAttribute_then_get (create_data 1 "size") db _ _ ltac:(vm_compute; reflexivity))
    as (Hr & Hs & Hg).
  split; [exact Hr|]. split; [exact Hs|].
  apply Hg. repeat constructor. simpl. lia.
Defined.

Lemma updateProductAttribute_then_get_witness :
  let db := sample_store [schema_row 100 1 "color" (Some [opt "red"]) 0 1] [] (Some "u1") in
  exists r db',
    updateProductAttribute table_client (key_update 100 "colour") db = (Ok (Success r), db') /\
    exists old, schemas_with_id db 100 = [old] /\
      r = Some (updated_row (upd (key_update 100 "colour")) old) /\
      db_schemas db' = update_rows 100 (upd (key_update 100 "colour")) (db_schemas db) /\
      getProductAttributeById table_client 100 db' = (Ok r, db').
Proof.
  intros db. do 2 eexists. split; [vm_compute; reflexivity|].
  apply (updateProductAttribute_then_get (key_update 100 "colour") db). vm_compute. reflexivity.
Defined.

Lemma deleteProductAttribute_then_get_witness :
  let db := sample_store [schema_row 100 1 "color" (Some [opt "red"]) 0 1] [] (Some "u1") in
  exists r db',
    deleteProductAttribute table_client 100 db = (Ok (Success r), db') /\
    db_schemas db' = List.filter (fun s => negb (bool_decide (attr_id s = 100%Z))) (db_schemas db) /\
    schemas_with_id db' 100 = [] /\
    getProductAttributeById table_client 100 db' = (Ok None, db').
Proof.
  intros db. do 2 eexists. split; [vm_compute; reflexivity|].
  eapply (deleteProductAttribute_then_get 100 db). vm_compute. reflexivity.
Defined.

Lemma addAttributeOption_then_remove_witness :
  let db := sample_store [schema_row 100 1 "color" (Some [opt "red"]) 0 1]
              [variant 7 1 [("color", "red")]] (Some "u1") in
  then_run (addAttributeOption table_client 100 (opt "blue"))
           (removeAttributeOption table_client 100 (value (opt "blue"))) db
  = (Ok (Success None, Success None), db).
Proof.
  cbv zeta. apply (addAttributeOption_then_remove _ _ _
    (schema_row 100 1 "color" (Some [opt "red"]) 0 1) [opt "red"]).
  - reflexivity.
  - reflexivity.
  - simpl. intros [H|[]]. discriminate H.
  - repeat constructor.
Defined.

Lemma addAttributeOption_keeps_values_distinct_witness :
  let db := sample_store [schema_row 100 1 "color" (Some [opt "red"]) 0 1] [] None in
  exists r db',
    addAttributeOption table_client 100 (opt "blue") db = (r, db') /\
    Forall (fun s => forall os, options (attr s) = Some os -> NoDup (map value os)) (db_schemas db').
Proof.
  intros db. do 2 eexists. split; [vm_compute; reflexivity|].
  eapply (addAttributeOption_keeps_values_distinct 100 (opt "blue") db); [|vm_compute; reflexivity].
  repeat constructor. intros os [= <-]. apply NoDup_singleton.
Defined.

Lemma removeAttributeOption_keeps_values_distinct_witness :
  let db := sample_store [schema_row 100 1 "color" (Some [opt "red"; opt "blue"]) 0 1] [] None in
  exists r db',
    removeAttributeOption table_client 100 "red" db = (r, db') /\
    Forall (fun s => forall os, options (attr s) = Some os -> NoDup (map value os)) (db_schemas db').
Proof.
  intros db. do 2 eexists. split; [vm_compute; reflexivity|].
  eapply (removeAttributeOption_keeps_values_distinct 100 "red" db); [|vm_compute; reflexivity].
  repeat constructor. intros os [= <-]. simpl. apply NoDup_cons. split; [|apply NoDup_singleton].
  rewrite list_elem_of_singleton. done.
Defined.

Lemma getAttributeCombinations_null_options_witness :
  let db := sample_store [schema_row 100 1 "color" (Some [opt "red"]) 0 1;
                          schema_row 101 1 "size" None 1 2] [] None in
  getAttributeCombinations table_client 1 db = (Ok [], db).
Proof.
  cbv zeta. apply (getAttributeCombinations_null_options _ _ (schema_row 101 1 "size" None 1 2)).
  - simpl. tauto.
  - reflexivity.
  - reflexivity.
Defined.

Lemma updateAttributeOrder_reorders_witness :
  let db := sample_store [schema_row 100 1 "color" (Some [opt "red"]) 0 1;
                          schema_row 101 1 "size" (Some [opt "S"]) 1 2] [] (Some "u1") in
  let l := [(100%Z, 5%Z); (101%Z, 3%Z)] in
  updateAttributeOrder table_client l [1; 0] db =
  (Ok (Success None), with_schemas db (map (reorder_row l) (db_schemas db))).
Proof.
  intros db l. apply (proj1 updateAttributeOrder_reorders).
  - vm_compute. apply perm_swap.
  - apply (bool_decide_unpack _). vm_compute. reflexivity.
Defined.

Lemma failed_mutations_keep_store_witness :
  let db := sample_store [schema_row 100 1 "color" (Some [opt "red"]) 0 1] [] (Some "u1") in
  addAttributeOption table_client 100 (opt "red") db = (Ok (Failure "Option value already exists"), db) /\
  db = db.
Proof.
  intros db. split; [vm_compute; reflexivity|].
  apply (proj1 (proj2 (proj2 (proj2 (failed_mutations_keep_store db "Option value already exists" db))))
           100%Z (opt "red")).
  vm_compute. reflexivity.
Defined.

